(** * Live voice session of the chat application: a shallow embedding

    The development follows [services/liveService.ts] (the audio helpers
    [encode], [decode], [decodeAudioData], [createBlob] and the class
    [LiveService]) and the voice handlers of [App.tsx].

    Conventions.
    - A JavaScript string is the list of its UTF-16 code units ([jsstring]).
    - A [Uint8Array] is a list of integers; its elements lie in [0, 256).
    - A sample of a [Float32Array] is a rational number.  Every finite
      binary32 value is a dyadic rational, and the only arithmetic the code
      performs on samples is a multiplication and a division by [32768 = 2^15],
      both exact in binary64, so nothing is lost by computing in [Q].
    - In the class ([Live]) the clock of an [AudioContext] and the
      durations of buffers are rationals (seconds): this is enough for what
      is said there of [nextStartTime] (its resets, its order).  The sums
      that [playAudioChunk] computes are binary64 sums, each one rounded;
      what depends on their values is said in [Binary64], where the
      timeline is computed as the code computes it.
    - Every effect on the browser or on the remote endpoint is recorded as
      an [Event] in a trace, in program order. *)

From Stdlib Require Import String Ascii.
From Stdlib Require Import ZArith QArith Qabs Qround Qminmax List Lia Lqa Bool.
From Stdlib Require Import Sorted Permutation DecimalString.
From Stdlib Require Floats Uint63.
Import ListNotations.
Local Open Scope Z_scope.

(** A JavaScript string, as the list of its code units. *)
Definition jsstring := list Z.

(** The code units of an ASCII literal. *)
Fixpoint lit (s : string) : jsstring :=
  match s with
  | EmptyString => []
  | String c r => Z.of_N (N_of_ascii c) :: lit r
  end.

(* ================================================================= *)
(** ** Base64: the platform's [btoa]/[atob] and the helpers built on them *)

Module Base64.

(** The base64 alphabet of RFC 4648, table 1. *)
Definition alphabet : jsstring :=
  lit "ABCDEFGHIJKLMNOPQRSTUVWXYZabcdefghijklmnopqrstuvwxyz0123456789+/".

Definition pad_char : Z := 61.  (* '=' *)

(** The character of a 6-bit group. *)
Definition char_of_sextet (n : Z) : Z := nth (Z.to_nat n) alphabet pad_char.

(** Position of a code unit in the alphabet. *)
Fixpoint index_of (c : Z) (l : list Z) (i : Z) : option Z :=
  match l with
  | [] => None
  | x :: r => if x =? c then Some i else index_of c r (i + 1)
  end.

Definition sextet_of_char (c : Z) : option Z := index_of c alphabet 0.

(** The 6-bit groups of a byte sequence, three bytes giving four groups;
    a final group of one or two bytes is filled with zero bits. *)
Fixpoint sextets (l : list Z) : list Z :=
  match l with
  | a :: b :: c :: r =>
      a / 4 :: (a mod 4) * 16 + b / 16 :: (b mod 16) * 4 + c / 64 :: c mod 64
        :: sextets r
  | [a; b] => [a / 4; (a mod 4) * 16 + b / 16; (b mod 16) * 4]
  | [a] => [a / 4; (a mod 4) * 16]
  | [] => []
  end.

(** Number of ['='] that complete the last group of four characters. *)
Fixpoint padding (l : list Z) : nat :=
  match l with
  | _ :: _ :: _ :: r => padding r
  | [_; _] => 1
  | [_] => 2
  | [] => 0
  end%nat.

(** [btoa]: fails (InvalidCharacterError) on a code unit above 255,
    otherwise the padded base64 text of the string read as bytes. *)
Definition btoa (s : jsstring) : option jsstring :=
  if forallb (fun c => c <=? 255) s
  then Some (map char_of_sextet (sextets s) ++ repeat pad_char (padding s))
  else None.

Definition is_ascii_whitespace (c : Z) : bool :=
  (c =? 9) || (c =? 10) || (c =? 12) || (c =? 13) || (c =? 32).

(** Removal of one or two trailing ['='], done when the length is a
    multiple of four. *)
Definition strip_padding (s : jsstring) : jsstring :=
  if Z.of_nat (List.length s) mod 4 =? 0
  then match rev s with
       | last :: before =>
           if last =? pad_char
           then match before with
                | last2 :: before2 =>
                    if last2 =? pad_char then rev before2 else rev before
                | [] => rev before
                end
           else s
       | [] => s
       end
  else s.

Fixpoint traverse_sextets (s : jsstring) : option (list Z) :=
  match s with
  | [] => Some []
  | c :: r =>
      match sextet_of_char c, traverse_sextets r with
      | Some n, Some ns => Some (n :: ns)
      | _, _ => None
      end
  end.

(** Bytes of a sequence of 6-bit groups; the 4 or 2 bits left over by a
    final group of two or three characters are discarded. *)
Fixpoint octets (l : list Z) : list Z :=
  match l with
  | a :: b :: c :: d :: r =>
      a * 4 + b / 16 :: (b mod 16) * 16 + c / 4 :: (c mod 4) * 64 + d
        :: octets r
  | [a; b; c] => [a * 4 + b / 16; (b mod 16) * 16 + c / 4]
  | [a; b] => [a * 4 + b / 16]
  | _ => []
  end.

(** [atob]: the forgiving-base64 decoding of the HTML standard.  [None]
    is the InvalidCharacterError it throws. *)
Definition atob (s : jsstring) : option jsstring :=
  let data := strip_padding (filter (fun c => negb (is_ascii_whitespace c)) s) in
  if Z.of_nat (length data) mod 4 =? 1 then None
  else option_map octets (traverse_sextets data).

(** [String.fromCharCode(n)] for one argument: the code unit [ToUint16 n]. *)
Definition fromCharCode (n : Z) : Z := n mod 65536.

(** Storing a number in a [Uint8Array]: [ToUint8]. *)
Definition toUint8 (n : Z) : Z := n mod 256.

(** [encode(bytes)]: one code unit per byte, then [btoa]. *)
Definition encode (bytes : list Z) : option jsstring :=
  btoa (map fromCharCode bytes).

(** [decode(base64)]: [atob], then one byte per code unit. *)
Definition decode (base64 : jsstring) : option (list Z) :=
  option_map (map toUint8) (atob base64).

End Base64.

(* ================================================================= *)
(** ** PCM frames: [createBlob] and [decodeAudioData] *)

Module Pcm.

(** Integer part of a number, rounding toward zero (the first step of
    every ECMAScript integer conversion). *)
Definition truncate (x : Q) : Z := Z.quot (Qnum x) (Z.pos (Qden x)).

(** [ToInt16] on an integer: reduction modulo [2^16] into
    [-32768, 32767]. *)
Definition toInt16 (n : Z) : Z :=
  let m := n mod 65536 in
  if 32768 <=? m then m - 65536 else m.

(** The assignment [int16[i] = x] of a finite number to an element of an
    [Int16Array]. *)
Definition int16_store (x : Q) : Z := toInt16 (truncate x).

(** The statement [int16[i] = data[i] * 32768] of [createBlob]. *)
Definition quantize (s : Q) : Z := int16_store (s * 32768).

(** The two bytes of an [Int16Array] element as a [Uint8Array] over the
    same buffer shows them (little-endian platforms). *)
Definition bytes_of_int16 (v : Z) : list Z := [v mod 256; (v / 256) mod 256].

(** [new Uint8Array(int16.buffer)]. *)
Definition uint8_view (l : list Z) : list Z := flat_map bytes_of_int16 l.

(** [new Int16Array(data.buffer)]: [None] is the RangeError raised when the
    byte length is odd. *)
Fixpoint int16_view (bytes : list Z) : option (list Z) :=
  match bytes with
  | [] => Some []
  | lo :: hi :: r => option_map (cons (toInt16 (lo + 256 * hi))) (int16_view r)
  | [_] => None
  end.

(** The object [{ data, mimeType }] that [createBlob] returns. *)
Record Blob := { data : jsstring; mimeType : jsstring }.

Definition createBlob (samples : list Q) : option Blob :=
  let int16 := map quantize samples in
  match Base64.encode (uint8_view int16) with
  | Some text => Some {| data := text; mimeType := lit "audio/pcm;rate=16000" |}
  | None => None
  end.

(** An [AudioBuffer]: its rate, its length in frames and the samples of
    each channel. *)
Record AudioBuffer := {
  sampleRate : Z;
  frames : nat;
  channels : list (list Q) }.

(** [buffer.duration], in seconds. *)
Definition duration (b : AudioBuffer) : Q :=
  inject_Z (Z.of_nat (frames b)) / inject_Z (sampleRate b).

(** The statement [channelData[i] = dataInt16[i * numChannels + channel] / 32768.0]. *)
Definition dequantize (v : Z) : Q := inject_Z v / 32768.

Inductive DecodeError := RangeError | NotSupportedError.

(** The arguments that [ctx.createBuffer(numberOfChannels, length,
    sampleRate)] accepts.  The Web Audio API makes it raise
    NotSupportedError when one of them is outside its nominal range: at
    least one frame, between 1 and 32 channels, and a rate between 3000 Hz
    and 768000 Hz (the bounds of the browsers the application runs in). *)
Definition supported_channels (numChannels : nat) : bool :=
  ((1 <=? numChannels) && (numChannels <=? 32))%nat.

Definition supported_length (frameCount : nat) : bool := (1 <=? frameCount)%nat.

Definition supported_rate (rate : Z) : bool :=
  (3000 <=? rate) && (rate <=? 768000).

(** [decodeAudioData(data, ctx, sampleRate, numChannels)].  The view over
    an odd number of bytes raises RangeError; then [ctx.createBuffer]
    raises NotSupportedError for arguments it does not support. *)
Definition decodeAudioData (bytes : list Z) (rate : Z) (numChannels : nat)
  : AudioBuffer + DecodeError :=
  match int16_view bytes with
  | None => inr RangeError
  | Some dataInt16 =>
      let frameCount := (List.length dataInt16 / numChannels)%nat in
      if negb (supported_channels numChannels && supported_length frameCount
               && supported_rate rate)
      then inr NotSupportedError
      else
        inl {| sampleRate := rate;
               frames := frameCount;
               channels :=
                 map (fun channel =>
                        map (fun i => dequantize
                                        (nth (i * numChannels + channel) dataInt16 0))
                            (seq 0 frameCount))
                     (seq 0 numChannels) |}
  end.

End Pcm.

(* ================================================================= *)
(** ** The class [LiveService] *)

Module Live.
Import Pcm.

(** Browser and SDK objects are known by a handle. *)
Definition handle := nat.
Bind Scope nat_scope with handle.

(** The exceptions that travel through the class. *)
Inductive Exn :=
| InvalidCharacterError            (* atob *)
| ViewRangeError                   (* new Int16Array(buffer) *)
| BufferNotSupportedError          (* ctx.createBuffer *)
| TypeError                        (* a property read on undefined, a time that is not finite *)
| StartRangeError                  (* source.start(when) with a negative time *)
| Error (message : string).        (* new Error(message) *)

(** What the class does to the outside world. *)
Inductive Event :=
| ConsoleLog (text : string)
| ConsoleError (text : string)
| LiveConnect                              (* ai.live.connect(...) *)
| SessionClose (session : handle)          (* session.close() *)
| SendRealtimeInput (session : handle) (media : Blob)
| CaptureStart (stream processor : handle) (* processor wired to the stream *)
| SourceStart (node : handle) (when : Q)   (* source.start(when) *)
| SourceStop (node : handle)               (* source.stop() *)
| ProcessorDisconnect (node : handle)
| SourceNodeDisconnect (node : handle)
| StreamStop (stream : handle)             (* every track of the stream stopped *)
| ContextClose (ctx : handle)
| OnClose                                  (* the caller's onClose() *)
| OnError (e : Exn)                        (* the caller's onError(e) *)
| EnterCleanup.                            (* a call of cleanup() begins *)

(** The private fields ([ai] apart, which is never reassigned). *)
Record LiveService := {
  session : option handle;
  inputAudioContext : option handle;
  outputAudioContext : option handle;
  nextStartTime : Q;
  sources : list handle;       (* the Set of source nodes, in insertion order *)
  stream : option handle;
  processor : option handle;
  sourceNode : option handle }.

(** [new LiveService()]. *)
Definition new_LiveService : LiveService :=
  {| session := None; inputAudioContext := None; outputAudioContext := None;
     nextStartTime := 0%Q; sources := []; stream := None; processor := None;
     sourceNode := None |}.

Definition set_session v s :=
  {| session := v; inputAudioContext := inputAudioContext s;
     outputAudioContext := outputAudioContext s; nextStartTime := nextStartTime s;
     sources := sources s; stream := stream s; processor := processor s;
     sourceNode := sourceNode s |}.
Definition set_inputAudioContext v s :=
  {| session := session s; inputAudioContext := v;
     outputAudioContext := outputAudioContext s; nextStartTime := nextStartTime s;
     sources := sources s; stream := stream s; processor := processor s;
     sourceNode := sourceNode s |}.
Definition set_outputAudioContext v s :=
  {| session := session s; inputAudioContext := inputAudioContext s;
     outputAudioContext := v; nextStartTime := nextStartTime s;
     sources := sources s; stream := stream s; processor := processor s;
     sourceNode := sourceNode s |}.
Definition set_nextStartTime v s :=
  {| session := session s; inputAudioContext := inputAudioContext s;
     outputAudioContext := outputAudioContext s; nextStartTime := v;
     sources := sources s; stream := stream s; processor := processor s;
     sourceNode := sourceNode s |}.
Definition set_sources v s :=
  {| session := session s; inputAudioContext := inputAudioContext s;
     outputAudioContext := outputAudioContext s; nextStartTime := nextStartTime s;
     sources := v; stream := stream s; processor := processor s;
     sourceNode := sourceNode s |}.
Definition set_stream v s :=
  {| session := session s; inputAudioContext := inputAudioContext s;
     outputAudioContext := outputAudioContext s; nextStartTime := nextStartTime s;
     sources := sources s; stream := v; processor := processor s;
     sourceNode := sourceNode s |}.
Definition set_processor v s :=
  {| session := session s; inputAudioContext := inputAudioContext s;
     outputAudioContext := outputAudioContext s; nextStartTime := nextStartTime s;
     sources := sources s; stream := stream s; processor := v;
     sourceNode := sourceNode s |}.
Definition set_sourceNode v s :=
  {| session := session s; inputAudioContext := inputAudioContext s;
     outputAudioContext := outputAudioContext s; nextStartTime := nextStartTime s;
     sources := sources s; stream := stream s; processor := processor s;
     sourceNode := v |}.

(** *** Methods as computations over the fields

    A method takes the object, and gives its result or the exception it
    throws, the object as it leaves it, and the events it caused. *)

Inductive Result (A : Type) :=
| Ok (a : A)
| Throw (e : Exn).
Arguments Ok {A} a.
Arguments Throw {A} e.

Definition M (A : Type) : Type := LiveService -> Result A * LiveService * list Event.

Definition ret {A} (a : A) : M A := fun s => (Ok a, s, []).

Definition bind {A B} (m : M A) (k : A -> M B) : M B :=
  fun s =>
    match m s with
    | (Ok a, s1, t1) => let '(r, s2, t2) := k a s1 in (r, s2, t1 ++ t2)
    | (Throw e, s1, t1) => (Throw e, s1, t1)
    end.

Definition throw {A} (e : Exn) : M A := fun s => (Throw e, s, []).

(** [try { m } catch (e) { h e }]. *)
Definition try_catch {A} (m : M A) (h : Exn -> M A) : M A :=
  fun s =>
    match m s with
    | (Ok a, s1, t1) => (Ok a, s1, t1)
    | (Throw e, s1, t1) => let '(r, s2, t2) := h e s1 in (r, s2, t1 ++ t2)
    end.

Definition this : M LiveService := fun s => (Ok s, s, []).
Definition assign (f : LiveService -> LiveService) : M unit := fun s => (Ok tt, f s, []).
Definition emit (e : Event) : M unit := fun s => (Ok tt, s, [e]).
Definition emit_all (l : list Event) : M unit := fun s => (Ok tt, s, l).

Declare Scope live_scope.
Delimit Scope live_scope with live.
Notation "x <- m ;; k" := (bind m (fun x => k))
  (at level 61, m at next level, right associativity) : live_scope.
Notation "m ;; k" := (bind m (fun _ => k))
  (at level 61, right associativity) : live_scope.
Local Open Scope live_scope.

(** [if (field) { body }] on a nullable field. *)
Definition when_set (field : option handle) (body : handle -> M unit) : M unit :=
  match field with
  | Some h => body h
  | None => ret tt
  end.

Definition state_of {A} (x : Result A * LiveService * list Event) : LiveService :=
  snd (fst x).
Definition trace_of {A} (x : Result A * LiveService * list Event) : list Event :=
  snd x.
Definition result_of {A} (x : Result A * LiveService * list Event) : Result A :=
  fst (fst x).

(** [sources.add(node)] and [sources.delete(node)] on the Set. *)
Definition set_add (n : handle) (l : list handle) : list handle :=
  if existsb (Nat.eqb n) l then l else l ++ [n].
Definition set_delete (n : handle) (l : list handle) : list handle :=
  filter (fun m => negb (Nat.eqb n m)) l.

(** [stopAudioPlayback()]: an exception of [source.stop()] is swallowed,
    so every source of the set receives the call. *)
Definition stopAudioPlayback : M unit :=
  s <- this ;;
  emit_all (map SourceStop (sources s)) ;;
  assign (set_sources []) ;;
  assign (set_nextStartTime 0%Q).

(** [cleanup()]. *)
Definition cleanup : M unit :=
  emit EnterCleanup ;;
  stopAudioPlayback ;;
  (s <- this ;;
   when_set (processor s) (fun p =>
     emit (ProcessorDisconnect p) ;; assign (set_processor None))) ;;
  (s <- this ;;
   when_set (sourceNode s) (fun n =>
     emit (SourceNodeDisconnect n) ;; assign (set_sourceNode None))) ;;
  (s <- this ;;
   when_set (stream s) (fun m =>
     emit (StreamStop m) ;; assign (set_stream None))) ;;
  (s <- this ;;
   when_set (inputAudioContext s) (fun c =>
     emit (ContextClose c) ;; assign (set_inputAudioContext None))) ;;
  (s <- this ;;
   when_set (outputAudioContext s) (fun c =>
     emit (ContextClose c) ;; assign (set_outputAudioContext None))) ;;
  assign (set_session None).

(** [disconnect()]. *)
Definition disconnect : M unit :=
  (s <- this ;;
   when_set (session s) (fun h => emit (SessionClose h))) ;;
  cleanup.

(** [playAudioChunk(base64)].  [now] is the value read from
    [outputAudioContext.currentTime], [node] the source that
    [createBufferSource()] returns.  The times are those of a clock, which
    is never negative; what [source.start] does with another argument, and
    the rounding of the sum, are in [Binary64.playAudioChunk]. *)
Definition playAudioChunk (base64 : jsstring) (now : Q) (node : handle) : M unit :=
  s <- this ;;
  match outputAudioContext s with
  | None => ret tt
  | Some _ =>
      assign (set_nextStartTime (Qmax (nextStartTime s) now)) ;;
      bytes <- match Base64.decode base64 with
               | Some bytes => ret bytes
               | None => throw InvalidCharacterError
               end ;;
      audioBuffer <- match decodeAudioData bytes 24000 1 with
                     | inl b => ret b
                     | inr RangeError => throw ViewRangeError
                     | inr NotSupportedError => throw BufferNotSupportedError
                     end ;;
      s1 <- this ;;
      emit (SourceStart node (nextStartTime s1)) ;;
      assign (set_nextStartTime (nextStartTime s1 + duration audioBuffer)%Q) ;;
      s2 <- this ;;
      assign (set_sources (set_add node (sources s2)))
  end.

(** The ['ended'] listener that [playAudioChunk] installs on a source. *)
Definition source_ended (node : handle) : M unit :=
  s <- this ;;
  assign (set_sources (set_delete node (sources s))).

(** The two values that [onmessage] reads from a server message, once
    read ([Wire.read] below reads them from the message as it arrives). *)
Record Message := {
  inlineData : option jsstring;   (* serverContent?.modelTurn?.parts[0]?.inlineData?.data *)
  interrupted : bool }.           (* serverContent?.interrupted *)

(** The [onmessage] callback, from its first test on.  An empty string is
    falsy. *)
Definition onmessage (message : Message) (now : Q) (node : handle) : M unit :=
  match inlineData message with
  | Some (c :: r) => playAudioChunk (c :: r) now node
  | _ => ret tt
  end ;;
  if interrupted message then stopAudioPlayback else ret tt.

(** [startAudioInput(sessionPromise)]: [srcNode] and [procNode] are the
    nodes that the input context creates. *)
Definition startAudioInput (srcNode procNode : handle) : M unit :=
  s <- this ;;
  match inputAudioContext s, stream s with
  | Some _, Some m =>
      assign (set_sourceNode (Some srcNode)) ;;
      assign (set_processor (Some procNode)) ;;
      emit (CaptureStart m procNode)
  | _, _ => ret tt
  end.

(** The [onopen], [onclose] and [onerror] callbacks. *)
Definition onopen (srcNode procNode : handle) : M unit :=
  emit (ConsoleLog "Live Session Connected") ;;
  startAudioInput srcNode procNode.

Definition onclose : M unit :=
  emit (ConsoleLog "Live Session Closed") ;;
  cleanup ;;
  emit OnClose.

(** [e] is [Some] for an instance of Error and [None] for anything else,
    an ErrorEvent for example. *)
Definition onerror (e : option Exn) : M unit :=
  emit (ConsoleError "Live Session Error") ;;
  emit (OnError match e with Some err => err | None => Error "WebSocket Error" end) ;;
  cleanup.

(** What [connect] finds in the browser. *)
Record Env := {
  mediaDevices : bool;             (* navigator.mediaDevices?.getUserMedia exists *)
  inputCtx : handle;               (* new AudioContext({ sampleRate: 16000 }) *)
  outputCtx : handle;              (* new AudioContext({ sampleRate: 24000 }) *)
  getUserMedia : option handle;    (* the stream, or None when the promise rejects *)
  mediaStreamSource : handle;      (* inputAudioContext.createMediaStreamSource(stream) *)
  scriptProcessor : handle }.      (* inputAudioContext.createScriptProcessor(4096, 1, 1) *)

(** The [catch] clause of [connect]. *)
Definition connect_catch (err : Exn) : M unit :=
  emit (ConsoleError "Failed to connect live session") ;;
  emit (OnError err) ;;
  cleanup.

(** [connect(onClose, onError)] up to [await sessionPromise].  The result
    is [true] when the method is left waiting for the session. *)
Definition connect (env : Env) : M bool :=
  try_catch
    ((if mediaDevices env then ret tt
      else throw (Error
        "Microphone access is not supported in this environment (HTTP or no hardware).")) ;;
     assign (set_inputAudioContext (Some (inputCtx env))) ;;
     assign (set_outputAudioContext (Some (outputCtx env))) ;;
     match getUserMedia env with
     | Some m => assign (set_stream (Some m))
     | None =>
         emit (ConsoleError "getUserMedia error:") ;;
         throw (Error
           "Could not access microphone. Please check permissions and ensure a microphone is connected.")
     end ;;
     emit LiveConnect ;;
     ret true)
    (fun err => connect_catch err ;; ret false).

(** The rest of [connect], once [sessionPromise] is settled. *)
Definition connect_settled (outcome : handle + Exn) : M unit :=
  match outcome with
  | inl h => assign (set_session (Some h))
  | inr err => connect_catch err
  end.

(** *** The promise of the session, as the capture callback uses it *)

Inductive Promise :=
| Pending (reactions : list Blob)   (* the frames whose [then] callback waits *)
| Fulfilled (session : handle)
| Rejected.

(** [sessionPromise.then(session => session.sendRealtimeInput({ media }))]. *)
Definition then_send (media : Blob) (p : Promise) : Promise * list Event :=
  match p with
  | Pending waiting => (Pending (waiting ++ [media]), [])
  | Fulfilled h => (p, [SendRealtimeInput h media])
  | Rejected => (p, [])
  end.

(** The [onaudioprocess] callback on one input buffer. *)
Definition onaudioprocess (inputData : list Q) (p : Promise) : Promise * list Event :=
  match createBlob inputData with
  | Some pcmBlob => then_send pcmBlob p
  | None => (p, [])
  end.

(** The promise is fulfilled: the waiting reactions run in the order of
    their registration. *)
Definition fulfil (h : handle) (p : Promise) : Promise * list Event :=
  match p with
  | Pending waiting => (Fulfilled h, map (SendRealtimeInput h) waiting)
  | _ => (p, [])
  end.

(** A run of capture callbacks. *)
Fixpoint capture (buffers : list (list Q)) (p : Promise) : Promise * list Event :=
  match buffers with
  | [] => (p, [])
  | b :: r =>
      let '(p1, t1) := onaudioprocess b p in
      let '(p2, t2) := capture r p1 in
      (p2, t1 ++ t2)
  end.

End Live.

(* ================================================================= *)
(** ** The server message as it arrives *)

Module Wire.

(** [LiveServerMessage] and the objects under it.  Every property that the
    SDK declares optional is an [option]; [None] is [undefined]. *)
Record Blob := { data : option jsstring }.
Record Part := { inlineData : option Blob }.
Record Content := { parts : option (list Part) }.
Record LiveServerContent := {
  modelTurn : option Content;
  interrupted : bool }.
Record LiveServerMessage := { serverContent : option LiveServerContent }.

(** The expression
    [message.serverContent?.modelTurn?.parts[0]?.inlineData?.data].  Each
    [?.] stops the chain on [undefined]; the index [parts[0]] has no such
    guard and throws TypeError when the turn has no [parts]. *)
Definition base64Audio (message : LiveServerMessage)
  : Live.Result (option jsstring) :=
  match serverContent message with
  | None => Live.Ok None
  | Some content =>
      match modelTurn content with
      | None => Live.Ok None
      | Some turn =>
          match parts turn with
          | None => Live.Throw Live.TypeError
          | Some [] => Live.Ok None
          | Some (part :: _) =>
              match inlineData part with
              | None => Live.Ok None
              | Some blob => Live.Ok (data blob)
              end
          end
      end
  end.

(** [message.serverContent?.interrupted], as a condition. *)
Definition is_interrupted (message : LiveServerMessage) : bool :=
  match serverContent message with
  | None => false
  | Some content => interrupted content
  end.

(** What the callback reads from the message, in its order. *)
Definition read (message : LiveServerMessage) : Live.Result Live.Message :=
  match base64Audio message with
  | Live.Ok audio =>
      Live.Ok {| Live.inlineData := audio;
                 Live.interrupted := is_interrupted message |}
  | Live.Throw e => Live.Throw e
  end.

(** The whole [onmessage] callback: the exception of the first line leaves
    it before anything is played or stopped. *)
Definition onmessage (message : LiveServerMessage) (now : Q) (node : Live.handle)
  : Live.M unit :=
  match read message with
  | Live.Ok view => Live.onmessage view now node
  | Live.Throw e => Live.throw e
  end.

End Wire.

(* ================================================================= *)
(** ** The voice handlers of [App] *)

Module App.
Import Live.

Inductive VoiceStatus := connecting | connected | error.

Definition VoiceStatus_eqb (a b : VoiceStatus) : bool :=
  match a, b with
  | connecting, connecting | connected, connected | error, error => true
  | _, _ => false
  end.

(** A chat session, with the two fields the voice handlers read. *)
Record ChatSession := { id : string; contactId : string }.

Record User := { isBot : bool }.

(** The table [USERS]; an absent [isBot] is falsy. *)
Definition USERS (contact : string) : option User :=
  if String.eqb contact "gemini" then Some {| isBot := true |}
  else if String.eqb contact "sarah" then Some {| isBot := false |}
  else if String.eqb contact "design" then Some {| isBot := false |}
  else None.

(** The state of the component that the voice handlers touch.  The
    [LiveService] objects live in [services], in order of creation;
    [liveServiceRef] is the index of the one that the ref holds. *)
Record App := {
  activeSessionId : option string;
  sessions : list ChatSession;
  isVoiceActive : bool;
  voiceStatus : VoiceStatus;
  voiceErrorMsg : string;
  services : list LiveService;
  liveServiceRef : option nat }.

(** What the handlers do outside the component. *)
Inductive Effect :=
| Alert (text : string)
| SetTimeout (ms : Z)              (* the delayed setIsVoiceActive(false) *)
| Service (e : Event).             (* an event of the service just created *)

Definition message_of (e : Exn) : string :=
  match e with
  | Error m => m
  | InvalidCharacterError => "InvalidCharacterError"
  | ViewRangeError => "RangeError"
  | BufferNotSupportedError => "NotSupportedError"
  | TypeError => "TypeError"
  | StartRangeError => "RangeError"
  end%string.

(** The [onClose] callback handed to [connect]. *)
Definition on_close (a : App) : App :=
  {| activeSessionId := activeSessionId a; sessions := sessions a;
     isVoiceActive := false; voiceStatus := connecting;
     voiceErrorMsg := voiceErrorMsg a; services := services a;
     liveServiceRef := liveServiceRef a |}.

(** The [onError] callback handed to [connect]. *)
Definition on_error (err : Exn) (a : App) : App * list Effect :=
  ({| activeSessionId := activeSessionId a; sessions := sessions a;
      isVoiceActive := isVoiceActive a; voiceStatus := error;
      voiceErrorMsg := if String.eqb (message_of err) EmptyString then "Unknown error"%string
                       else message_of err;
      services := services a; liveServiceRef := liveServiceRef a |},
   [SetTimeout 3500]).

(** The callbacks run where the service calls them. *)
Fixpoint deliver (t : list Event) (a : App) : App * list Effect :=
  match t with
  | [] => (a, [])
  | OnClose :: r =>
      let '(a2, f2) := deliver r (on_close a) in (a2, Service OnClose :: f2)
  | OnError err :: r =>
      let '(a1, f1) := on_error err a in
      let '(a2, f2) := deliver r a1 in
      (a2, Service (OnError err) :: f1 ++ f2)
  | e :: r =>
      let '(a2, f2) := deliver r a in (a2, Service e :: f2)
  end.

(** [new LiveService()] followed by [await service.connect(...)]: the
    service as the call leaves it and the events of the call.  [env] is what
    [connect] finds in the browser and [outcome] how the promise of
    [ai.live.connect] settles.  The promise is fulfilled once the socket
    is open, so [onopen] has run by then; it does not run when the promise
    is rejected. *)
Definition start_service (env : Env) (outcome : handle + Exn)
  : LiveService * list Event :=
  let '(waiting, service, t1) := connect env new_LiveService in
  match waiting with
  | Ok true =>
      let '(_, service1, t2) :=
        match outcome with
        | inl _ => onopen (mediaStreamSource env) (scriptProcessor env) service
        | inr _ => (Ok tt, service, [])
        end in
      let '(_, service2, t3) := connect_settled outcome service1 in
      (service2, t1 ++ t2 ++ t3)
  | _ => (service, t1)
  end.

Definition set_voiceStatus (v : VoiceStatus) (a : App) : App :=
  {| activeSessionId := activeSessionId a; sessions := sessions a;
     isVoiceActive := isVoiceActive a; voiceStatus := v;
     voiceErrorMsg := voiceErrorMsg a; services := services a;
     liveServiceRef := liveServiceRef a |}.


(** The statements of [handleVoiceStart] between its tests and the
    [await]: three setters, [new LiveService()] and the assignment of the
    ref. *)
Definition started (service : LiveService) (a : App) : App :=
  {| activeSessionId := activeSessionId a; sessions := sessions a;
     isVoiceActive := true; voiceStatus := connecting;
     voiceErrorMsg := EmptyString;
     services := services a ++ [service];
     liveServiceRef := Some (List.length (services a)) |}.

(** [handleVoiceStart()].  An id that is the empty string is falsy, as
    [null] is.  The value of [voiceStatus] tested after the [await] is the
    one of the render that created the handler. *)
Definition handleVoiceStart (env : Env) (outcome : handle + Exn) (a : App)
  : App * list Effect :=
  match activeSessionId a with
  | None => (a, [])
  | Some sid =>
      if String.eqb sid EmptyString then (a, []) else
      match find (fun s => String.eqb (id s) sid) (sessions a) with
      | None => (a, [])
      | Some session =>
          match USERS (contactId session) with
          | None => (a, [])          (* reading [isBot] of undefined throws *)
          | Some contact =>
              if negb (isBot contact)
              then (a, [Alert "Voice chat is currently only available with Gemini AI."])
              else
                let rendered := voiceStatus a in
                let '(service, t) := start_service env outcome in
                let '(a2, effects) := deliver t (started service a) in
                (if VoiceStatus_eqb rendered error then a2
                 else set_voiceStatus connected a2,
                 effects)
          end
      end
  end.

(** [handleVoiceHangup()]. *)
Definition handleVoiceHangup (a : App) : App * list Effect :=
  let '(services', effects, ref') :=
    match liveServiceRef a with
    | Some i =>
        match nth_error (services a) i with
        | Some service =>
            let '(_, service', t) := disconnect service in
            (firstn i (services a) ++ service' :: skipn (S i) (services a),
             map Service t, None)
        | None => (services a, [], None)
        end
    | None => (services a, [], None)
    end in
  ({| activeSessionId := activeSessionId a; sessions := sessions a;
      isVoiceActive := false; voiceStatus := voiceStatus a;
      voiceErrorMsg := voiceErrorMsg a; services := services';
      liveServiceRef := ref' |},
   effects).

End App.

(* ================================================================= *)
(** ** Runs of the scheduler and of teardown *)

Module Runs.
Import Pcm Live.

(** The buffer that [playAudioChunk] obtains from a chunk, or the
    exception that [decode] or [decodeAudioData] throws. *)
Definition chunk_buffer (base64 : jsstring) : AudioBuffer + Exn :=
  match Base64.decode base64 with
  | None => inr InvalidCharacterError
  | Some bytes =>
      match decodeAudioData bytes 24000 1 with
      | inl b => inl b
      | inr RangeError => inr ViewRangeError
      | inr NotSupportedError => inr BufferNotSupportedError
      end
  end.

(** A chunk that is not base64 text, or whose bytes stop in the middle of
    a 16-bit sample. *)
Definition malformed (base64 : jsstring) : bool :=
  match Base64.decode base64 with
  | None => true
  | Some bytes => Nat.odd (List.length bytes)
  end.

(** The operations on the playback timeline. *)
Inductive Op :=
| Schedule (base64 : jsstring) (now : Q) (node : handle)
| Interrupt
| Cleanup.

Definition run_op (op : Op) : M unit :=
  match op with
  | Schedule base64 now node => playAudioChunk base64 now node
  | Interrupt => stopAudioPlayback
  | Cleanup => cleanup
  end.

Definition is_schedule (op : Op) : bool :=
  match op with
  | Schedule _ _ _ => true
  | _ => false
  end.

(** Each operation is a call of its own: an exception ends that call and
    leaves the object as it is then. *)
Fixpoint run_ops (ops : list Op) (s : LiveService) : LiveService :=
  match ops with
  | [] => s
  | op :: r => run_ops r (state_of (run_op op s))
  end.

(** The two ways of tearing a service down. *)
Inductive Teardown := ByCleanup | ByDisconnect.

Definition teardown (how : Teardown) : M unit :=
  match how with
  | ByCleanup => cleanup
  | ByDisconnect => disconnect
  end.

Fixpoint teardowns (hows : list Teardown) (s : LiveService) : LiveService * list Event :=
  match hows with
  | [] => (s, [])
  | how :: r =>
      let x := teardown how s in
      let '(s2, t2) := teardowns r (state_of x) in
      (s2, trace_of x ++ t2)
  end.

(** The event of a held resource being let go. *)
Definition released (f : handle -> Event) (field : option handle) : list Event :=
  match field with
  | Some h => [f h]
  | None => []
  end.

Definition is_release (e : Event) : bool :=
  match e with
  | SessionClose _ | SourceStop _ | ProcessorDisconnect _
  | SourceNodeDisconnect _ | StreamStop _ | ContextClose _ => true
  | _ => false
  end.

Definition is_cleanup (e : Event) : bool :=
  match e with EnterCleanup => true | _ => false end.

Definition is_live_connect (e : Event) : bool :=
  match e with LiveConnect => true | _ => false end.

Definition is_on_error (e : Event) : bool :=
  match e with OnError _ => true | _ => false end.

Definition is_console (e : Event) : bool :=
  match e with ConsoleLog _ | ConsoleError _ => true | _ => false end.

(** The fields that hold the devices and the connection. *)
Definition same_resources (s s' : LiveService) : Prop :=
  session s' = session s /\
  inputAudioContext s' = inputAudioContext s /\
  outputAudioContext s' = outputAudioContext s /\
  stream s' = stream s /\
  processor s' = processor s /\
  sourceNode s' = sourceNode s.

(** Length of the queue of frames that wait for the session. *)
Definition waiting_frames (p : Promise) : nat :=
  match p with
  | Pending waiting => List.length waiting
  | _ => 0%nat
  end.

End Runs.

(* ================================================================= *)
(** ** Concrete browsers, services and chunks *)

Module Samples.
Import Pcm Live.

(** A browser that grants the microphone. *)
Definition granted : Env :=
  {| mediaDevices := true; inputCtx := 1%nat; outputCtx := 2%nat;
     getUserMedia := Some 3%nat; mediaStreamSource := 4%nat; scriptProcessor := 5%nat |}.

(** A browser whose user refuses the microphone. *)
Definition denied : Env :=
  {| mediaDevices := true; inputCtx := 1%nat; outputCtx := 2%nat;
     getUserMedia := None; mediaStreamSource := 4%nat; scriptProcessor := 5%nat |}.

(** A browser without [navigator.mediaDevices]. *)
Definition unsupported : Env :=
  {| mediaDevices := false; inputCtx := 1%nat; outputCtx := 2%nat;
     getUserMedia := None; mediaStreamSource := 4%nat; scriptProcessor := 5%nat |}.

(** A service whose session is open and whose capture runs: the object
    after [connect], [onopen] and the settling of the session promise. *)
Definition active : LiveService :=
  state_of (connect_settled (inl 7%nat)
    (state_of (onopen 4%nat 5%nat (state_of (connect granted new_LiveService))))).

(** A tenth of a second of silence at 24 kHz: 4800 zero bytes, in base64. *)
Definition silence_tenth : jsstring := repeat 65 (64 * 100)%nat.

Definition silence_buffer : AudioBuffer :=
  {| sampleRate := 24000; frames := 2400%nat;
     channels := [repeat (dequantize 0) 2400%nat] |}.

(** The active service with one item scheduled at clock [5]. *)
Definition playing : LiveService :=
  state_of (playAudioChunk silence_tenth 5%Q 10%nat active).

(** The component with the chat of the bot open and no call. *)
Definition idle : App.App :=
  {| App.activeSessionId := Some "s1"%string;
     App.sessions := [ {| App.id := "s1"; App.contactId := "gemini" |};
                       {| App.id := "s2"; App.contactId := "sarah" |};
                       {| App.id := "s3"; App.contactId := "design" |} ];
     App.isVoiceActive := false;
     App.voiceStatus := App.connecting;
     App.voiceErrorMsg := EmptyString;
     App.services := [];
     App.liveServiceRef := None |}.

(** The same component during a call: the overlay is shown, the status is
    [connected] and the ref holds the active service. *)
Definition busy : App.App :=
  {| App.activeSessionId := Some "s1"%string;
     App.sessions := App.sessions idle;
     App.isVoiceActive := true;
     App.voiceStatus := App.connected;
     App.voiceErrorMsg := EmptyString;
     App.services := [active];
     App.liveServiceRef := Some 0%nat |}.

End Samples.

(* ================================================================= *)
(** ** The playback timeline in binary64 *)

Module Binary64.
Import PrimFloat.

(** An integer of [0, 2^63) as a Number. *)
Definition number (n : Z) : float := of_uint63 (Uint63.of_Z n).

(** The rational that a finite Number is. *)
Definition exact (x : float) : option Q :=
  match FloatOps.Prim2SF x with
  | SpecFloat.S754_zero _ => Some 0%Q
  | SpecFloat.S754_finite sign m e =>
      Some ((if sign then -1 else 1) * inject_Z (Z.pos m) * Qpower 2 e)%Q
  | _ => None
  end.

(** [Math.max(a, b)]: NaN when an argument is NaN, and [+0] above [-0]. *)
Definition Math_max (a b : float) : float :=
  if (is_nan a || is_nan b)%bool then nan
  else if (a <? b)%float then b
  else if (is_zero a && is_zero b && get_sign a)%bool then b
  else a.

(** [buffer.duration]: the length over the rate, as a Number. *)
Definition duration (b : Pcm.AudioBuffer) : float :=
  (number (Z.of_nat (Pcm.frames b)) / number (Pcm.sampleRate b))%float.

(** The fields of the service that [playAudioChunk] reads and writes, with
    [nextStartTime] as the Number it is. *)
Record Timeline := {
  outputAudioContext : option Live.handle;
  nextStartTime : float;
  sources : list Live.handle }.

(** The timeline of a service whose [nextStartTime] is [next]. *)
Definition of_service (s : Live.LiveService) (next : float) : Timeline :=
  {| outputAudioContext := Live.outputAudioContext s;
     nextStartTime := next;
     sources := Live.sources s |}.

Inductive Event :=
| SourceStart (node : Live.handle) (when : float).   (* source.start(when) *)

(** The argument that [source.start(when)] accepts: a time that is finite
    and not negative.  The call throws TypeError for a time that is not
    finite and RangeError for a negative one. *)
Definition startable (when : float) : bool :=
  (is_finite when && negb (when <? 0)%float)%bool.

Definition start_error (when : float) : option Live.Exn :=
  if negb (is_finite when) then Some Live.TypeError
  else if (when <? 0)%float then Some Live.StartRangeError
  else None.

(** [playAudioChunk(base64)], on the timeline: [now] is
    [outputAudioContext.currentTime] and [node] the source that
    [createBufferSource] returns. *)
Definition playAudioChunk (base64 : jsstring) (now : float) (node : Live.handle)
    (s : Timeline) : Live.Result unit * Timeline * list Event :=
  match outputAudioContext s with
  | None => (Live.Ok tt, s, [])
  | Some _ =>
      let start := Math_max (nextStartTime s) now in
      let s1 := {| outputAudioContext := outputAudioContext s;
                   nextStartTime := start;
                   sources := sources s |} in
      match Runs.chunk_buffer base64 with
      | inr e => (Live.Throw e, s1, [])
      | inl audioBuffer =>
          match start_error start with
          | Some e => (Live.Throw e, s1, [])
          | None =>
              (Live.Ok tt,
               {| outputAudioContext := outputAudioContext s;
                  nextStartTime := (start + duration audioBuffer)%float;
                  sources := Live.set_add node (sources s) |},
               [SourceStart node start])
          end
      end
  end.

Definition result_of (x : Live.Result unit * Timeline * list Event) := fst (fst x).
Definition state_of (x : Live.Result unit * Timeline * list Event) := snd (fst x).
Definition trace_of (x : Live.Result unit * Timeline * list Event) := snd x.

(** What one scheduled item amounts to: the source is started at
    [Math.max(nextStartTime, now)], [nextStartTime] becomes that start plus
    the duration of the buffer, and the source joins the set. *)
Definition scheduled (s : Timeline) (now : float) (node : Live.handle)
    (b : Pcm.AudioBuffer) (r : Live.Result unit * Timeline * list Event) : Prop :=
  let start := Math_max (nextStartTime s) now in
  result_of r = Live.Ok tt /\
  trace_of r = [SourceStart node start] /\
  nextStartTime (state_of r) = (start + duration b)%float /\
  sources (state_of r) = Live.set_add node (sources s) /\
  outputAudioContext (state_of r) = outputAudioContext s.

(** A chunk as it is played: its text, the clock when it is read, its
    source node. *)
Definition Chunk : Type := jsstring * float * Live.handle.

(** The chunks of a run, played one after the other. *)
Fixpoint play (chunks : list Chunk) (s : Timeline) : Timeline * list Event :=
  match chunks with
  | [] => (s, [])
  | (base64, now, node) :: rest =>
      let r := playAudioChunk base64 now node s in
      let '(s2, t2) := play rest (state_of r) in
      (s2, trace_of r ++ t2)
  end.

(** Every chunk of the run decodes and is read while the queue is ahead of
    the clock: the clock has not passed the [nextStartTime] that the chunk
    finds, which is a time that [start] accepts. *)
Fixpoint queued (chunks : list Chunk) (s : Timeline) : Prop :=
  match chunks with
  | [] => True
  | (base64, now, node) :: rest =>
      (exists b, Runs.chunk_buffer base64 = inl b) /\
      startable (nextStartTime s) = true /\
      (now <=? nextStartTime s)%float = true /\
      queued rest (state_of (playAudioChunk base64 now node s))
  end.

(** The starts of a run leave no gap: each source starts at the time that
    [nextStartTime] held when its chunk was read, and moves it by the
    duration of its buffer. *)
Fixpoint gapless (chunks : list Chunk) (s : Timeline) (t : list Event) : Prop :=
  match chunks, t with
  | [], [] => True
  | (base64, now, node) :: rest, SourceStart node' when :: t' =>
      node' = node /\
      (when =? nextStartTime s)%float = true /\
      (exists b, Runs.chunk_buffer base64 = inl b /\
         nextStartTime (state_of (playAudioChunk base64 now node s))
         = (when + duration b)%float) /\
      gapless rest (state_of (playAudioChunk base64 now node s)) t'
  | _, _ => False
  end.

(** The timeline of the active service of [Samples], nothing queued. *)
Definition active : Timeline := of_service Samples.active 0%float.

End Binary64.

(* ================================================================= *)
(** ** Ranges of the typed arrays *)

(** An element of a [Uint8Array]. *)
Definition is_byte (b : Z) : Prop := 0 <= b < 256.

(** An element of an [Int16Array]. *)
Definition is_int16 (v : Z) : Prop := -32768 <= v <= 32767.

(** A 6-bit group. *)
Definition is_sextet (n : Z) : Prop := 0 <= n < 64.

(** The three facts about the character of a 6-bit group, as one test. *)
Definition sextet_check (n : Z) : bool :=
  match Base64.sextet_of_char (Base64.char_of_sextet n) with
  | Some m => m =? n
  | None => false
  end
  && negb (Base64.char_of_sextet n =? Base64.pad_char)
  && negb (Base64.is_ascii_whitespace (Base64.char_of_sextet n)).

(** [decode] after [encode], when [encode] returns. *)
Definition base64_roundtrip (bytes : list Z) : option (list Z) :=
  match Base64.encode bytes with
  | Some text => Base64.decode text
  | None => None
  end.

(** A sample of the half-open interval [-1, 1). *)
Definition below_full_scale (s : Q) : Prop := (-1 <= s)%Q /\ (s < 1)%Q.

(* ================================================================= *)
(** ** The quantizer as the specification words it *)

(** Rounding to the nearest integer, halves upward. *)
Definition spec_round (x : Q) : Z := Qfloor (x + (1 # 2)).

(** Clamping to the range of a 16-bit signed integer. *)
Definition spec_clamp_int16 (n : Z) : Z := Z.max (-32768) (Z.min 32767 n).

(** [round(s * 32768)] clamped to the int16 range. *)
Definition spec_quantize (s : Q) : Z := spec_clamp_int16 (spec_round (s * 32768)).

(* ================================================================= *)
(** ** The life of a service as a sequence of calls *)

Module Calls.
Import Pcm Live.

(** What the component and the SDK may call on a service, with what the
    call finds outside. *)
Inductive Call :=
| Connect (env : Env)                      (* connect(...) up to the await *)
| Settled (outcome : handle + Exn)         (* the session promise settles *)
| Opened (srcNode procNode : handle)    (* the onopen callback *)
| Received (message : Message) (now : Q) (node : handle)  (* onmessage *)
| Ended (node : handle)                    (* the 'ended' event of a source *)
| Closed                                   (* the onclose callback *)
| Failed (e : option Exn)                  (* the onerror callback *)
| Disconnect.

(** A call leaves the object in some state and a trace, also when it
    throws. *)
Definition call (c : Call) (s : LiveService) : LiveService * list Event :=
  match c with
  | Connect env => let x := connect env s in (state_of x, trace_of x)
  | Settled outcome => let x := connect_settled outcome s in (state_of x, trace_of x)
  | Opened srcNode procNode => let x := onopen srcNode procNode s in (state_of x, trace_of x)
  | Received message now node =>
      let x := onmessage message now node s in (state_of x, trace_of x)
  | Ended node => let x := source_ended node s in (state_of x, trace_of x)
  | Closed => let x := onclose s in (state_of x, trace_of x)
  | Failed e => let x := onerror e s in (state_of x, trace_of x)
  | Disconnect => let x := disconnect s in (state_of x, trace_of x)
  end.

Fixpoint calls (cs : list Call) (s : LiveService) : LiveService * list Event :=
  match cs with
  | [] => (s, [])
  | c :: r =>
      let '(s1, t1) := call c s in
      let '(s2, t2) := calls r s1 in
      (s2, t1 ++ t2)
  end.

(** What holds of the fields of a service at every moment of its life. *)
Definition consistent (s : LiveService) : Prop :=
  NoDup (sources s) /\
  (sources s <> [] -> outputAudioContext s <> None) /\
  (processor s <> None -> inputAudioContext s <> None /\ stream s <> None) /\
  (sourceNode s = None <-> processor s = None) /\
  (0 <= nextStartTime s)%Q.

(** The calls that only play or retire audio. *)
Definition is_playback (c : Call) : bool :=
  match c with
  | Received _ _ _ | Ended _ => true
  | _ => false
  end.

Definition is_capture_start (e : Event) : bool :=
  match e with CaptureStart _ _ => true | _ => false end.

Definition is_send (e : Event) : bool :=
  match e with SendRealtimeInput _ _ => true | _ => false end.

End Calls.

(* ================================================================= *)
(** ** The text chat: [createChatStream] *)

Module Gemini.

(** [s.startsWith(prefix)]. *)
Fixpoint startsWith (prefix s : jsstring) : bool :=
  match prefix, s with
  | [], _ => true
  | _ :: _, [] => false
  | a :: prefix', b :: s' => (a =? b) && startsWith prefix' s'
  end.

(** [s.split(sep)] for a separator that is not empty: the text is read
    from left to right; [skip] counts the characters of a separator just met
    that are still to be passed over, [piece] holds the current piece,
    reversed. *)
Fixpoint split_from (sep : jsstring) (skip : nat) (piece : jsstring) (s : jsstring)
  : list jsstring :=
  match s with
  | [] => [rev piece]
  | c :: r =>
      match skip with
      | S k => split_from sep k piece r
      | O =>
          if startsWith sep s
          then rev piece :: split_from sep (List.length sep - 1) [] r
          else split_from sep 0 (c :: piece) r
      end
  end.

Definition split (sep s : jsstring) : list jsstring := split_from sep 0 [] s.

(** [s.includes(sep)]. *)
Fixpoint includes (sep s : jsstring) : bool :=
  startsWith sep s
  || match s with
     | [] => false
     | _ :: r => includes sep r
     end.

(** The attachment that [createChatStream] receives. *)
Record Attachment := { mimeType : jsstring; data : jsstring }.

(** The parts of a message and the two shapes of [messageContent]. *)
Inductive Part :=
| TextPart (text : jsstring)
| InlineData (mimeType data : jsstring).

Inductive Content :=
| Plain (text : jsstring)
| Parts (parts : list Part).

(** The constant [base64Data] for an image attachment; [split(...)[1]] is
    [undefined] when the text has a single piece, written as [None]. *)
Definition base64Data (attachment : Attachment) : option jsstring :=
  if includes (lit "base64,") (data attachment)
  then nth_error (split (lit "base64,") (data attachment)) 1
  else Some (data attachment).

(** The value of [messageContent] when the message is sent.  An empty
    [newMessage] is falsy. *)
Definition messageContent (newMessage : jsstring) (attachment : option Attachment)
  : option Content :=
  match attachment with
  | Some att =>
      if startsWith (lit "image/") (mimeType att)
      then
        match base64Data att with
        | Some payload =>
            Some (Parts [TextPart match newMessage with
                                  | [] => lit "Analyze this image"
                                  | _ => newMessage
                                  end;
                         InlineData (mimeType att) payload])
        | None => None
        end
      else Some (Plain (lit "[User sent a file: " ++ mimeType att ++ lit "]. "
                          ++ newMessage))
  | None => Some (Plain newMessage)
  end.

(** What the stream of the reply yields: a chunk, whose [text] may be
    absent, or a failure of the iteration. *)
Inductive StreamItem :=
| Chunk (text : option jsstring)
| Broken.

(** What the function does outside. *)
Inductive Effect :=
| SendMessageStream (message : option Content)
| OnChunk (fullText : jsstring)
| ConsoleError (text : string).

(** The loop [for await (const chunk of resultStream)]: the text returned,
    or [None] when the iteration throws, and the calls of [onChunk]. *)
Fixpoint read_stream (items : list StreamItem) (fullText : jsstring)
  : option jsstring * list Effect :=
  match items with
  | [] => (Some fullText, [])
  | Chunk (Some (c :: t)) :: rest =>
      let fullText' := fullText ++ c :: t in
      let '(result, calls) := read_stream rest fullText' in
      (result, OnChunk fullText' :: calls)
  | Chunk _ :: rest => read_stream rest fullText
  | Broken :: _ => (None, [])
  end.

(** [createChatStream(history, newMessage, attachment, onChunk)], given
    what the stream yields.  [None] is the exception thrown again by the
    [catch], after it is logged.  [history] is not read. *)
Definition createChatStream (newMessage : jsstring) (attachment : option Attachment)
    (items : list StreamItem) : option jsstring * list Effect :=
  let message := messageContent newMessage attachment in
  let '(result, calls) := read_stream items [] in
  (result,
   SendMessageStream message :: calls
     ++ match result with
        | Some _ => []
        | None => [ConsoleError "Gemini API Error:"]
        end).

(** The text of a chunk, empty when absent. *)
Definition chunk_text (text : option jsstring) : jsstring :=
  match text with
  | Some t => t
  | None => []
  end.

(** A chunk whose text is truthy. *)
Definition nonempty_text (text : option jsstring) : bool :=
  match text with
  | Some (_ :: _) => true
  | _ => false
  end.

End Gemini.

(* ================================================================= *)
(** ** The list of chats of [App] *)

Module Chats.

Inductive AttachmentType := AImage | AFile.

Record Attachment := {
  attachment_type : AttachmentType;   (* the field [type] *)
  url : string;
  name : option string;
  mimeType : option string;
  size : option Z }.

Inductive MessageType := TText | TImage | TFile | TSystem.

Inductive MessageStatus := Sending | Sent | Errored.

Record Message := {
  message_id : string;                (* the field [id] *)
  senderId : string;
  content : string;
  attachment : option Attachment;
  timestamp : Z;
  message_type : MessageType;         (* the field [type] *)
  status : option MessageStatus }.

Record ChatSession := {
  id : string;
  contactId : string;
  messages : list Message;
  unreadCount : Z;
  lastMessageTimestamp : Z }.

(** The two pieces of state of the component that the handlers of the
    list touch. *)
Record Chats := {
  activeSessionId : option string;
  sessions : list ChatSession }.

(** [handleSelectChat(sessionId)]. *)
Definition handleSelectChat (sessionId : string) (st : Chats) : Chats :=
  {| activeSessionId := Some sessionId;
     sessions :=
       map (fun s =>
              if String.eqb (id s) sessionId
              then {| id := id s; contactId := contactId s; messages := messages s;
                      unreadCount := 0;
                      lastMessageTimestamp := lastMessageTimestamp s |}
              else s)
           (sessions st) |}.

(** [array.findIndex(p)], [None] for [-1]. *)
Fixpoint findIndex {A} (p : A -> bool) (l : list A) : option nat :=
  match l with
  | [] => None
  | x :: r => if p x then Some 0%nat else option_map S (findIndex p r)
  end.

(** [array.sort((a, b) => b.lastMessageTimestamp - a.lastMessageTimestamp)]:
    the sort is stable, so a session goes before the sessions after it in the
    array whose timestamp is not larger. *)
Fixpoint insert_session (x : ChatSession) (l : list ChatSession) : list ChatSession :=
  match l with
  | [] => [x]
  | y :: r =>
      if lastMessageTimestamp y <=? lastMessageTimestamp x
      then x :: y :: r
      else y :: insert_session x r
  end.

Definition sort_sessions (l : list ChatSession) : list ChatSession :=
  fold_right insert_session [] l.

(** The message of the user that [handleSendMessage] builds; [now_id] and
    [now_timestamp] are the two readings of [Date.now()]. *)
Definition newUserMsg (currentUser text : string) (att : option Attachment)
    (now_id now_timestamp : Z) : Message :=
  {| message_id := NilZero.string_of_int (Z.to_int now_id);
     senderId := currentUser;
     content := text;
     attachment := att;
     timestamp := now_timestamp;
     message_type := match att with
                     | Some a => match attachment_type a with
                                 | AImage => TImage
                                 | AFile => TFile
                                 end
                     | None => TText
                     end;
     status := Some Sent |}.

(** The session at [sessionIndex] with the message added at the end. *)
Definition with_message (msg : Message) (s : ChatSession) : ChatSession :=
  {| id := id s; contactId := contactId s;
     messages := messages s ++ [msg];
     unreadCount := unreadCount s;
     lastMessageTimestamp := timestamp msg |}.

(** The first update of [handleSendMessage]: the message of the user is
    added to the open chat and the chats are sorted again.  An id that is
    the empty string is falsy, as [null] is.  The state that the update
    receives is the one the handler read. *)
Definition handleSendMessage (currentUser text : string) (att : option Attachment)
    (now_id now_timestamp : Z) (st : Chats) : Chats :=
  match activeSessionId st with
  | None => st
  | Some sid =>
      if String.eqb sid EmptyString then st else
      match findIndex (fun s => String.eqb (id s) sid) (sessions st) with
      | None => st
      | Some sessionIndex =>
          match nth_error (sessions st) sessionIndex with
          | None => st
          | Some session =>
              let msg := newUserMsg currentUser text att now_id now_timestamp in
              {| activeSessionId := activeSessionId st;
                 sessions :=
                   sort_sessions
                     (firstn sessionIndex (sessions st)
                        ++ with_message msg session
                        :: skipn (S sessionIndex) (sessions st)) |}
          end
      end
  end.

(** Newest first. *)
Definition newest_first (a b : ChatSession) : Prop :=
  lastMessageTimestamp b <= lastMessageTimestamp a.

(** [INITIAL_SESSIONS] when [Date.now()] reads [now], with the chat of
    Sarah open. *)
Definition initial (now : Z) : Chats :=
  {| activeSessionId := Some "s2"%string;
     sessions :=
       [ {| id := "s1"; contactId := "gemini";
            messages :=
              [ {| message_id := "m0"; senderId := "gemini";
                   content := "Hi! I can help you with text or analyze images you send.";
                   attachment := None; timestamp := now - 100000;
                   message_type := TText; status := None |} ];
            unreadCount := 0; lastMessageTimestamp := now - 100000 |};
         {| id := "s2"; contactId := "sarah";
            messages :=
              [ {| message_id := "m1"; senderId := "sarah";
                   content := "Did you see the new designs?";
                   attachment := None; timestamp := now - 500000;
                   message_type := TText; status := None |} ];
            unreadCount := 2; lastMessageTimestamp := now - 500000 |};
         {| id := "s3"; contactId := "design";
            messages :=
              [ {| message_id := "m2"; senderId := "design";
                   content := "Meeting moved to 3pm";
                   attachment := None; timestamp := now - 1000000;
                   message_type := TText; status := None |} ];
            unreadCount := 0; lastMessageTimestamp := now - 1000000 |} ] |}.

End Chats.

(** * Properties *)

Example encode_Man : Base64.encode (lit "Man") = Some (lit "TWFu").
Proof. reflexivity. Qed.
Example encode_Ma : Base64.encode (lit "Ma") = Some (lit "TWE=").
Proof. reflexivity. Qed.
Example encode_M : Base64.encode (lit "M") = Some (lit "TQ==").
Proof. reflexivity. Qed.
Example decode_TQ : Base64.decode (lit "TQ==") = Some (lit "M").
Proof. reflexivity. Qed.
Example decode_TWE : Base64.decode (lit "TWE") = Some (lit "Ma").
Proof. reflexivity. Qed.
Example decode_bad : Base64.decode (lit "TWF$") = None.
Proof. reflexivity. Qed.
Example decode_len1 : Base64.decode (lit "TWFuT") = None.
Proof. reflexivity. Qed.

(* ================================================================= *)
(** ** Base64 *)

Section Base64Facts.
Import Base64.

(** Induction on a list, three elements at a time. *)
Lemma list_ind_by3 (A : Type) (P : list A -> Prop) :
  P [] ->
  (forall x, P [x]) ->
  (forall x y, P [x; y]) ->
  (forall x y z r, P r -> P (x :: y :: z :: r)) ->
  forall l, P l.
Proof.
  intros H0 H1 H2 H3.
  fix IH 1.
  intros [|x [|y [|z r]]]; [apply H0 | apply H1 | apply H2 | apply H3; apply IH].
Qed.

Lemma sextets_range l : Forall is_byte l -> Forall is_sextet (sextets l).
Proof.
  unfold is_byte, is_sextet.
  induction l as [| x | x y | x y z r IH] using list_ind_by3; intros H; simpl.
  - constructor.
  - inversion_clear H. repeat constructor; Z.div_mod_to_equations; lia.
  - inversion_clear H as [|? ? Hx H']. inversion_clear H' as [|? ? Hy _].
    repeat constructor; Z.div_mod_to_equations; lia.
  - inversion_clear H as [|? ? Hx H']. inversion_clear H' as [|? ? Hy H''].
    inversion_clear H'' as [|? ? Hz Hr].
    repeat (constructor; [Z.div_mod_to_equations; lia|]). auto.
Qed.

Lemma octets_sextets l : Forall is_byte l -> octets (sextets l) = l.
Proof.
  unfold is_byte.
  induction l as [| x | x y | x y z r IH] using list_ind_by3; intros H; simpl.
  - reflexivity.
  - inversion_clear H. f_equal. Z.div_mod_to_equations; lia.
  - inversion_clear H as [|? ? Hx H']. inversion_clear H' as [|? ? Hy _].
    f_equal; [|f_equal]; Z.div_mod_to_equations; lia.
  - inversion_clear H as [|? ? Hx H']. inversion_clear H' as [|? ? Hy H''].
    inversion_clear H'' as [|? ? Hz Hr].
    rewrite (IH Hr).
    f_equal; [|f_equal; [|f_equal]]; Z.div_mod_to_equations; lia.
Qed.

Lemma sextet_check_all n : is_sextet n -> sextet_check n = true.
Proof.
  intros Hn.
  assert (H : forallb sextet_check (map Z.of_nat (seq 0 64)) = true)
    by (vm_compute; reflexivity).
  rewrite forallb_forall in H. apply H.
  apply in_map_iff. exists (Z.to_nat n). unfold is_sextet in Hn.
  split; [lia | apply in_seq; lia].
Qed.

Lemma sextet_of_char_of_sextet n :
  is_sextet n -> sextet_of_char (char_of_sextet n) = Some n.
Proof.
  intros Hn. pose proof (sextet_check_all n Hn) as H. unfold sextet_check in H.
  apply andb_prop in H as [H _]. apply andb_prop in H as [H _].
  destruct (sextet_of_char (char_of_sextet n)); [|discriminate].
  apply Z.eqb_eq in H. now subst.
Qed.

Lemma char_of_sextet_not_pad n :
  is_sextet n -> (char_of_sextet n =? pad_char) = false.
Proof.
  intros Hn. pose proof (sextet_check_all n Hn) as H. unfold sextet_check in H.
  apply andb_prop in H as [H _]. apply andb_prop in H as [_ H].
  now apply negb_true_iff in H.
Qed.

Lemma char_of_sextet_not_space n :
  is_sextet n -> is_ascii_whitespace (char_of_sextet n) = false.
Proof.
  intros Hn. pose proof (sextet_check_all n Hn) as H. unfold sextet_check in H.
  apply andb_prop in H as [_ H]. now apply negb_true_iff in H.
Qed.

Lemma traverse_sextets_chars l :
  Forall is_sextet l -> traverse_sextets (map char_of_sextet l) = Some l.
Proof.
  induction 1 as [|n l Hn _ IH]; simpl; [reflexivity|].
  now rewrite sextet_of_char_of_sextet, IH.
Qed.

Lemma filter_spaces_chars l :
  Forall is_sextet l ->
  filter (fun c => negb (is_ascii_whitespace c)) (map char_of_sextet l)
  = map char_of_sextet l.
Proof.
  induction 1 as [|n l Hn _ IH]; simpl; [reflexivity|].
  now rewrite char_of_sextet_not_space, IH.
Qed.

Lemma filter_spaces_pad k :
  filter (fun c => negb (is_ascii_whitespace c)) (repeat pad_char k)
  = repeat pad_char k.
Proof. induction k; simpl; [reflexivity | now rewrite IHk]. Qed.

(** Length of the text before padding, against the number of pads. *)
Lemma sextets_shape l :
  let n := Z.of_nat (List.length (sextets l)) in
  (padding l = 0%nat /\ n mod 4 = 0) \/
  (padding l = 1%nat /\ n mod 4 = 3) \/
  (padding l = 2%nat /\ n mod 4 = 2).
Proof.
  induction l as [| x | x y | x y z r IH] using list_ind_by3; cbn zeta.
  - left. split; reflexivity.
  - right; right. split; reflexivity.
  - right; left. split; reflexivity.
  - cbn [sextets padding List.length]. cbn zeta in IH.
    replace (Z.of_nat (S (S (S (S (List.length (sextets r)))))))
      with (Z.of_nat (List.length (sextets r)) + 1 * 4) by lia.
    rewrite Z.mod_add by lia. exact IH.
Qed.

Lemma strip_padding_text body k :
  Forall (fun c => (c =? pad_char) = false) body ->
  Z.of_nat (List.length body + k) mod 4 = 0 ->
  (k <= 2)%nat ->
  strip_padding (body ++ repeat pad_char k) = body.
Proof.
  intros Hbody Hlen Hk. unfold strip_padding.
  rewrite length_app, repeat_length, Hlen. cbn [Z.eqb].
  rewrite rev_app_distr.
  assert (Hlast : forall c r, rev body = c :: r -> (c =? pad_char) = false).
  { intros c r E. rewrite Forall_forall in Hbody. apply Hbody.
    apply in_rev. rewrite E. now left. }
  assert (Hrev : rev (rev body) = body) by apply rev_involutive.
  destruct k as [|[|[|k]]]; [| | |lia]; cbn [repeat rev app].
  - rewrite app_nil_r. destruct (rev body) as [|c r]; [reflexivity|].
    now rewrite (Hlast c r eq_refl).
  - cbn [Z.eqb pad_char Pos.eqb]. destruct (rev body) as [|c r].
    + exact Hrev.
    + rewrite (Hlast c r eq_refl). exact Hrev.
  - cbn [Z.eqb pad_char Pos.eqb]. exact Hrev.
Qed.

Lemma chars_not_pad l :
  Forall is_sextet l ->
  Forall (fun c => (c =? pad_char) = false) (map char_of_sextet l).
Proof.
  induction 1; simpl; constructor; auto using char_of_sextet_not_pad.
Qed.

(** [atob] undoes [btoa] on a string of bytes. *)
Lemma atob_btoa l :
  Forall is_byte l -> exists text, btoa l = Some text /\ atob text = Some l.
Proof.
  intros Hl. unfold btoa.
  assert (Hle : forallb (fun c => c <=? 255) l = true).
  { apply forallb_forall. intros c Hc. rewrite Forall_forall in Hl.
    specialize (Hl c Hc). unfold is_byte in Hl. apply Z.leb_le. lia. }
  rewrite Hle. eexists. split; [reflexivity|].
  pose proof (sextets_range l Hl) as Hs.
  unfold atob.
  rewrite filter_app, filter_spaces_chars, filter_spaces_pad by assumption.
  pose proof (sextets_shape l) as Shape. cbn zeta in Shape.
  assert (Hpad : (padding l <= 2)%nat) by (destruct Shape as [[-> _]|[[-> _]|[-> _]]]; lia).
  assert (Hlen : Z.of_nat (List.length (map char_of_sextet (sextets l)) + padding l) mod 4 = 0).
  { rewrite length_map, Nat2Z.inj_add, Z.add_mod by lia.
    destruct Shape as [[-> ->]|[[-> ->]|[-> ->]]]; reflexivity. }
  rewrite strip_padding_text by auto using chars_not_pad.
  rewrite length_map.
  assert (Hne : (Z.of_nat (List.length (sextets l)) mod 4 =? 1) = false).
  { apply Z.eqb_neq. destruct Shape as [[_ ->]|[[_ ->]|[_ ->]]]; lia. }
  rewrite Hne, traverse_sextets_chars by assumption. cbn [option_map].
  now rewrite octets_sextets.
Qed.

Lemma map_fromCharCode_bytes l : Forall is_byte l -> map fromCharCode l = l.
Proof.
  induction 1 as [|b l Hb _ IH]; simpl; [reflexivity|].
  rewrite IH. f_equal. unfold fromCharCode, is_byte in *. apply Z.mod_small. lia.
Qed.

Lemma map_toUint8_bytes l : Forall is_byte l -> map toUint8 l = l.
Proof.
  induction 1 as [|b l Hb _ IH]; simpl; [reflexivity|].
  rewrite IH. f_equal. unfold toUint8, is_byte in *. apply Z.mod_small. lia.
Qed.

(** The helper [decode] undoes the helper [encode]. *)
Lemma decode_encode_bytes bytes :
  Forall is_byte bytes ->
  exists text, encode bytes = Some text /\ decode text = Some bytes.
Proof.
  intros Hb. unfold encode, decode. rewrite map_fromCharCode_bytes by assumption.
  destruct (atob_btoa bytes Hb) as [text [E1 E2]].
  exists text. split; [assumption|]. rewrite E2. cbn [option_map].
  now rewrite map_toUint8_bytes.
Qed.

End Base64Facts.

(* ================================================================= *)
(** ** PCM frames *)


Section PcmFacts.
Import Pcm.

Lemma toInt16_range n : is_int16 (toInt16 n).
Proof.
  unfold is_int16, toInt16. cbv zeta.
  pose proof (Z.mod_pos_bound n 65536 ltac:(lia)).
  destruct (32768 <=? n mod 65536) eqn:E;
    [apply Z.leb_le in E | apply Z.leb_gt in E]; lia.
Qed.

Lemma toInt16_small n : is_int16 n -> toInt16 n = n.
Proof.
  unfold is_int16, toInt16. intros H. cbv zeta.
  destruct (32768 <=? n mod 65536) eqn:E;
    [apply Z.leb_le in E | apply Z.leb_gt in E];
    revert E; Z.div_mod_to_equations; lia.
Qed.

Lemma bytes_of_int16_bytes v : Forall is_byte (bytes_of_int16 v).
Proof.
  unfold bytes_of_int16, is_byte.
  repeat constructor; Z.div_mod_to_equations; lia.
Qed.

Lemma uint8_view_bytes l : Forall is_byte (uint8_view l).
Proof.
  induction l as [|v l IH]; simpl; [constructor|].
  pose proof (bytes_of_int16_bytes v) as H. unfold bytes_of_int16 in H.
  inversion_clear H as [|? ? H0 H1]. inversion_clear H1 as [|? ? H2 _].
  repeat (constructor; [assumption|]). exact IH.
Qed.

Lemma int16_of_bytes v : is_int16 v -> toInt16 (v mod 256 + 256 * ((v / 256) mod 256)) = v.
Proof.
  intros H. unfold is_int16, toInt16 in *. cbv zeta.
  destruct (32768 <=? _) eqn:E;
    [apply Z.leb_le in E | apply Z.leb_gt in E];
    revert E; Z.div_mod_to_equations; lia.
Qed.

Lemma int16_view_uint8_view l :
  Forall is_int16 l -> int16_view (uint8_view l) = Some l.
Proof.
  induction 1 as [|v l Hv _ IH]; simpl; [reflexivity|].
  now rewrite IH, int16_of_bytes.
Qed.

Lemma truncate_nonneg x :
  (0 <= x)%Q -> (inject_Z (truncate x) <= x /\ x < inject_Z (truncate x) + 1)%Q.
Proof.
  destruct x as [n d]. unfold truncate, Qle, Qlt. cbn.
  intros Hn. 
  pose proof (Z.quot_rem' n (Z.pos d)) as E.
  pose proof (Z.rem_bound_pos n (Z.pos d) ltac:(lia) ltac:(lia)) as B.
  split; nia.
Qed.

Lemma truncate_nonpos x :
  (x <= 0)%Q -> (x <= inject_Z (truncate x) /\ inject_Z (truncate x) - 1 < x)%Q.
Proof.
  destruct x as [n d]. unfold truncate, Qle, Qlt. cbn.
  intros Hn.
  pose proof (Z.quot_rem' n (Z.pos d)) as E.
  pose proof (Z.rem_bound_pos_neg n (Z.pos d) ltac:(lia) ltac:(lia)) as B.
  split; nia.
Qed.


(** [truncate] is within one unit of its argument, on the side of zero. *)
Lemma truncate_near x :
  (Qabs (inject_Z (truncate x) - x) < 1)%Q.
Proof.
  apply Qabs_Qlt_condition.
  destruct (Qlt_le_dec x 0) as [Hneg|Hpos].
  - destruct (truncate_nonpos x) as [H1 H2]; [lra|]. split; lra.
  - destruct (truncate_nonneg x Hpos) as [H1 H2]. split; lra.
Qed.

Lemma truncate_scaled_range s :
  (-1 <= s)%Q -> (s < 1)%Q -> is_int16 (truncate (s * 32768)).
Proof.
  destruct s as [n d]. unfold Qle, Qlt, is_int16, truncate. cbn.
  intros Hlo Hhi.
  pose proof (Z.quot_rem' (n * 32768) (Z.pos (d * 1))) as E.
  destruct (Z_lt_le_dec n 0) as [Hn|Hn].
  - pose proof (Z.rem_bound_pos_neg (n * 32768) (Z.pos (d * 1)) ltac:(lia) ltac:(lia)).
    nia.
  - pose proof (Z.rem_bound_pos (n * 32768) (Z.pos (d * 1)) ltac:(lia) ltac:(lia)).
    nia.
Qed.

(** Inside the half-open interval the store into the [Int16Array] is the
    truncation: no reduction modulo [2^16] takes place. *)
Lemma quantize_truncates s :
  (-1 <= s)%Q -> (s < 1)%Q -> quantize s = truncate (s * 32768).
Proof.
  intros Hlo Hhi. unfold quantize, int16_store.
  apply toInt16_small. now apply truncate_scaled_range.
Qed.

Lemma dequantize_quantize_error s :
  (-1 <= s)%Q -> (s < 1)%Q ->
  (Qabs (dequantize (quantize s) - s) < 1 # 32768)%Q.
Proof.
  intros Hlo Hhi. rewrite quantize_truncates by assumption.
  pose proof (truncate_near (s * 32768)) as H.
  apply Qabs_Qlt_condition in H. apply Qabs_Qlt_condition.
  unfold dequantize. destruct H as [H1 H2].
  split.
  - apply Qlt_minus_iff. apply Qlt_minus_iff in H1.
    setoid_replace (inject_Z (truncate (s * 32768)) / 32768 - s + - - (1 # 32768))%Q
      with ((inject_Z (truncate (s * 32768)) - s * 32768 + - - (1)) * (1 # 32768))%Q
      by (field).
    apply (Qmult_lt_0_compat); [assumption | reflexivity].
  - apply Qlt_minus_iff. apply Qlt_minus_iff in H2.
    setoid_replace ((1 # 32768) + - (inject_Z (truncate (s * 32768)) / 32768 - s))%Q
      with ((1 + - (inject_Z (truncate (s * 32768)) - s * 32768)) * (1 # 32768))%Q
      by (field).
    apply (Qmult_lt_0_compat); [assumption | reflexivity].
Qed.

Lemma quantize_range s : is_int16 (quantize s).
Proof. apply toInt16_range. Qed.

Lemma map_nth_seq {A B} (f : A -> B) (d : A) (l : list A) :
  map (fun i => f (nth i l d)) (seq 0 (List.length l)) = map f l.
Proof.
  induction l as [|x l IH]; [reflexivity|].
  cbn [List.length seq map nth]. f_equal.
  rewrite <- seq_shift, map_map. exact IH.
Qed.

(** A mono buffer decodes to the samples of the view, in order. *)
Lemma decodeAudioData_mono ints rate :
  ints <> [] -> Forall is_int16 ints -> supported_rate rate = true ->
  decodeAudioData (uint8_view ints) rate 1
  = inl {| sampleRate := rate; frames := List.length ints;
           channels := [map dequantize ints] |}.
Proof.
  intros Hne Hints Hrate. unfold decodeAudioData.
  rewrite int16_view_uint8_view by assumption.
  rewrite Nat.div_1_r, Hrate.
  assert (Hlen : supported_length (List.length ints) = true).
  { unfold supported_length. apply Nat.leb_le.
    destruct ints; [contradiction | cbn; lia]. }
  rewrite Hlen. cbn [supported_channels Nat.leb andb negb seq map].
  do 2 f_equal. f_equal.
  rewrite <- (map_nth_seq dequantize 0 ints).
  apply map_ext. intros i. now rewrite Nat.mul_1_r, Nat.add_0_r.
Qed.

(** What [createBlob] sends is what [decode] and [decodeAudioData] read
    back, whatever the samples. *)
Lemma createBlob_decoded samples :
  samples <> [] ->
  exists blob,
    createBlob samples = Some blob /\
    mimeType blob = lit "audio/pcm;rate=16000" /\
    Base64.decode (data blob) = Some (uint8_view (map quantize samples)) /\
    decodeAudioData (uint8_view (map quantize samples)) 24000 1
    = inl {| sampleRate := 24000; frames := List.length samples;
             channels := [map (fun s => dequantize (quantize s)) samples] |}.
Proof.
  intros Hne. unfold createBlob.
  destruct (decode_encode_bytes _ (uint8_view_bytes (map quantize samples)))
    as [text [E1 E2]].
  rewrite E1. eexists. split; [reflexivity|]. cbn [data mimeType].
  split; [reflexivity|]. split; [assumption|].
  rewrite decodeAudioData_mono.
  - now rewrite length_map, map_map.
  - destruct samples; [contradiction | discriminate].
  - apply Forall_forall. intros v Hv. apply in_map_iff in Hv as [s [<- _]].
    apply quantize_range.
  - reflexivity.
Qed.

End PcmFacts.

(** C10: for every byte array, [decode] applied to the text that [encode]
    produces gives the array back: the two helpers are mutually inverse and
    lossless on bytes. *)
Theorem base64_decode_encode (bytes : list Z) :
  Forall is_byte bytes -> base64_roundtrip bytes = Some bytes.
Proof.
  intros Hb. unfold base64_roundtrip.
  destruct (decode_encode_bytes bytes Hb) as [text [E1 E2]].
  now rewrite E1.
Qed.

Lemma base64_decode_encode_witness :
  Forall is_byte [0; 255; 77; 128] /\
  base64_roundtrip [0; 255; 77; 128] = Some [0; 255; 77; 128].
Proof.
  assert (H : Forall is_byte [0; 255; 77; 128])
    by (repeat constructor; unfold is_byte; lia).
  split; [exact H | exact (base64_decode_encode [0; 255; 77; 128] H)].
Defined.

(** C1, as stated, fails.  At full scale the sample [1] is stored as
    [-32768] where rounding and clamping give [32767], and it plays back as
    [-1], at distance [2] from the sample.  Below full scale the sample
    [0.75 / 32768] is stored as [0], its truncation, where rounding gives
    [1]. *)
Lemma quantize_full_scale_wraps :
  (-1 <= 1)%Q /\ (1 <= 1)%Q /\
  Pcm.quantize 1 = -32768 /\
  spec_quantize 1 = 32767 /\
  ~ (Qabs (Pcm.dequantize (Pcm.quantize 1) - 1) <= 1 # 32768)%Q /\
  Pcm.quantize (3 # 131072) = 0 /\
  spec_quantize (3 # 131072) = 1.
Proof.
  repeat split; try reflexivity; try (vm_compute; discriminate).
  vm_compute. intros H. apply H. reflexivity.
Qed.

(** C1, amended: for samples of [-1, 1) the encoder stores the truncation
    toward zero of [s * 32768], a value of the int16 range reached without
    reduction modulo [2^16]; the frame that [createBlob] sends decodes, through
    [decode] and [decodeAudioData], to one channel whose samples are each
    within [1/32768] of the captured ones. *)
Theorem capture_playback_roundtrip (samples : list Q) :
  samples <> [] ->
  Forall below_full_scale samples ->
  exists blob bytes buffer played,
    Pcm.createBlob samples = Some blob /\
    Base64.decode (Pcm.data blob) = Some bytes /\
    Pcm.decodeAudioData bytes 24000 1 = inl buffer /\
    Pcm.channels buffer = [played] /\
    Forall2 (fun s y =>
               Pcm.quantize s = Pcm.truncate (s * 32768) /\
               is_int16 (Pcm.quantize s) /\
               y = Pcm.dequantize (Pcm.quantize s) /\
               (Qabs (y - s) < 1 # 32768)%Q)
            samples played.
Proof.
  intros Hne Hs.
  destruct (createBlob_decoded samples Hne) as [blob [E1 [_ [E2 E3]]]].
  exists blob. eexists. eexists. eexists.
  split; [exact E1|]. split; [exact E2|]. split; [exact E3|].
  split; [reflexivity|].
  clear Hne blob E1 E2 E3.
  induction Hs as [|s r [Hlo Hhi] _ IH]; cbn [map]; constructor; [|exact IH].
  split; [now apply quantize_truncates|].
  split; [apply quantize_range|].
  split; [reflexivity|].
  now apply dequantize_quantize_error.
Qed.

Lemma capture_playback_roundtrip_witness :
  exists blob bytes buffer played,
    Pcm.createBlob [-1; 1 # 3; 32767 # 32768]%Q = Some blob /\
    Base64.decode (Pcm.data blob) = Some bytes /\
    Pcm.decodeAudioData bytes 24000 1 = inl buffer /\
    Pcm.channels buffer = [played] /\
    Forall2 (fun s y =>
               Pcm.quantize s = Pcm.truncate (s * 32768) /\
               is_int16 (Pcm.quantize s) /\
               y = Pcm.dequantize (Pcm.quantize s) /\
               (Qabs (y - s) < 1 # 32768)%Q)
            [-1; 1 # 3; 32767 # 32768]%Q played.
Proof.
  apply (capture_playback_roundtrip [-1; 1 # 3; 32767 # 32768]%Q).
  - discriminate.
  - repeat constructor; vm_compute; congruence.
Defined.

(* ================================================================= *)
(** ** The playback timeline *)

Section SchedulerFacts.
Import Pcm Live Runs.

Lemma stopAudioPlayback_run s :
  stopAudioPlayback s
  = (Ok tt, set_nextStartTime 0%Q (set_sources [] s), map SourceStop (sources s)).
Proof.
  unfold stopAudioPlayback, bind, this, emit_all, assign. cbn.
  now rewrite !app_nil_r.
Qed.

(** [cleanup] leaves the object as a new one, and lets go of what it held,
    in the order of the source. *)
Lemma cleanup_run s :
  cleanup s
  = (Ok tt, new_LiveService,
     EnterCleanup :: map SourceStop (sources s)
       ++ released ProcessorDisconnect (processor s)
       ++ released SourceNodeDisconnect (sourceNode s)
       ++ released StreamStop (stream s)
       ++ released ContextClose (inputAudioContext s)
       ++ released ContextClose (outputAudioContext s)).
Proof.
  destruct s as [se ic oc nt so st pr sn].
  unfold cleanup, stopAudioPlayback, bind, this, emit, emit_all, assign, when_set, ret.
  cbn. rewrite !app_nil_r.
  destruct pr, sn, st, ic, oc; cbn; rewrite ?app_nil_r; reflexivity.
Qed.

Lemma disconnect_run s :
  disconnect s
  = (Ok tt, new_LiveService,
     released SessionClose (session s) ++ trace_of (cleanup s)).
Proof.
  unfold disconnect, bind, this, emit, when_set, ret.
  destruct (session s); cbn -[cleanup]; rewrite cleanup_run; reflexivity.
Qed.

Lemma decodeAudioData_rate bytes rate n b :
  decodeAudioData bytes rate n = inl b -> sampleRate b = rate.
Proof.
  unfold decodeAudioData. destruct (int16_view bytes); [|discriminate].
  destruct (negb _); [discriminate|].
  intros E. injection E as <-. reflexivity.
Qed.

Lemma chunk_buffer_rate base64 b : chunk_buffer base64 = inl b -> sampleRate b = 24000.
Proof.
  unfold chunk_buffer. destruct (Base64.decode base64); [|discriminate].
  destruct (decodeAudioData l 24000 1) as [b'|[]] eqn:E; try discriminate.
  intros E'. injection E' as <-. exact (decodeAudioData_rate _ _ _ _ E).
Qed.

Lemma chunk_duration_nonneg base64 b : chunk_buffer base64 = inl b -> (0 <= duration b)%Q.
Proof.
  intros E. unfold duration. rewrite (chunk_buffer_rate _ _ E).
  apply Qle_shift_div_l; [reflexivity|].
  rewrite Qmult_0_l. change 0%Q with (inject_Z 0). rewrite <- Zle_Qle. lia.
Qed.

(** The three ways [playAudioChunk] runs. *)
Lemma playAudioChunk_detached base64 now node s :
  outputAudioContext s = None -> playAudioChunk base64 now node s = (Ok tt, s, []).
Proof.
  intros H. unfold playAudioChunk, bind, this. cbn. rewrite H. reflexivity.
Qed.

Lemma playAudioChunk_thrown base64 now node s ctx e :
  outputAudioContext s = Some ctx -> chunk_buffer base64 = inr e ->
  playAudioChunk base64 now node s
  = (Throw e, set_nextStartTime (Qmax (nextStartTime s) now) s, []).
Proof.
  intros H E. unfold chunk_buffer in E.
  unfold playAudioChunk, bind, this, assign, throw, ret. cbn. rewrite H. cbn.
  destruct (Base64.decode base64) as [bytes|]; cbn.
  - destruct (decodeAudioData bytes 24000 1) as [b|[]]; try discriminate;
      injection E as <-; reflexivity.
  - injection E as <-. reflexivity.
Qed.

Lemma playAudioChunk_scheduled base64 now node s ctx b :
  outputAudioContext s = Some ctx -> chunk_buffer base64 = inl b ->
  playAudioChunk base64 now node s
  = (Ok tt,
     set_sources (set_add node (sources s))
       (set_nextStartTime (Qmax (nextStartTime s) now + duration b)%Q s),
     [SourceStart node (Qmax (nextStartTime s) now)]).
Proof.
  intros H E. unfold chunk_buffer in E.
  unfold playAudioChunk, bind, this, assign, throw, ret, emit. cbn. rewrite H. cbn.
  destruct (Base64.decode base64) as [bytes|]; [|discriminate]. cbn.
  destruct (decodeAudioData bytes 24000 1) as [b'|[]]; try discriminate.
  injection E as ->. reflexivity.
Qed.

(** A step of the timeline never moves [nextStartTime] back. *)
Lemma playAudioChunk_monotone base64 now node s :
  (nextStartTime s <= nextStartTime (state_of (playAudioChunk base64 now node s)))%Q.
Proof.
  destruct (outputAudioContext s) as [ctx|] eqn:H.
  - destruct (chunk_buffer base64) as [b|e] eqn:E.
    + rewrite (playAudioChunk_scheduled _ _ _ _ _ _ H E). cbn.
      pose proof (chunk_duration_nonneg _ _ E).
      pose proof (Q.le_max_l (nextStartTime s) now). lra.
    + rewrite (playAudioChunk_thrown _ _ _ _ _ _ H E). cbn.
      apply Q.le_max_l.
  - rewrite (playAudioChunk_detached _ _ _ _ H). cbn. apply Qle_refl.
Qed.

Lemma run_ops_schedules_monotone ops :
  forallb is_schedule ops = true ->
  forall s, (nextStartTime s <= nextStartTime (run_ops ops s))%Q.
Proof.
  induction ops as [|op r IH]; intros Hall s; cbn [run_ops].
  - apply Qle_refl.
  - cbn [forallb] in Hall. apply andb_prop in Hall as [Hop Hr].
    destruct op as [base64 now node| |]; try discriminate.
    eapply Qle_trans; [apply (playAudioChunk_monotone base64 now node)|].
    apply (IH Hr).
Qed.

End SchedulerFacts.
(* ================================================================= *)
(** ** Claims on the playback timeline and on teardown *)

Section Binary64Facts.
Import PrimFloat SpecFloat FloatOps FloatAxioms.
Import Pcm Live Runs.

(** The comparison of the specification of binary64. *)
Lemma SFcompare_antisym x y :
  SFcompare x y = option_map CompOpp (SFcompare y x).
Proof.
  destruct x as [sx|sx| |sx mx ex], y as [sy|sy| |sy my ey]; cbn;
    try reflexivity;
    try (destruct sx; reflexivity); try (destruct sy; reflexivity);
    try (destruct sx, sy; reflexivity).
  destruct sx, sy; try reflexivity; f_equal;
    rewrite (Z.compare_antisym ex ey);
    destruct (ex ?= ey)%Z; cbn; try reflexivity;
    rewrite (Pos.compare_cont_antisym my mx Eq); cbn;
    destruct (Pos.compare_cont Eq mx my); reflexivity.
Qed.

Lemma SFcompare_refl x : x <> S754_nan -> SFcompare x x = Some Eq.
Proof.
  destruct x as [s|s| |s m e]; cbn; intros H; try congruence.
  - destruct s; reflexivity.
  - rewrite Z.compare_refl, Pos.compare_cont_refl. destruct s; reflexivity.
Qed.

Lemma SFcompare_nan x y c : SFcompare x y = Some c -> x <> S754_nan /\ y <> S754_nan.
Proof. destruct x, y; cbn; intros H; split; congruence. Qed.

Lemma leb_not_nan a b : (b <=? a)%float = true -> is_nan a = false /\ is_nan b = false.
Proof.
  rewrite leb_spec. unfold SFleb, is_nan. rewrite !eqb_spec. unfold SFeqb.
  destruct (SFcompare (Prim2SF b) (Prim2SF a)) as [c|] eqn:E; [|discriminate].
  intros _. destruct (SFcompare_nan _ _ _ E) as [Hb Ha].
  now rewrite !SFcompare_refl.
Qed.

Lemma leb_not_ltb a b : (b <=? a)%float = true -> (a <? b)%float = false.
Proof.
  rewrite leb_spec, ltb_spec. unfold SFleb, SFltb.
  rewrite (SFcompare_antisym (Prim2SF a)).
  destruct (SFcompare (Prim2SF b) (Prim2SF a)) as [[| |]|]; cbn; congruence.
Qed.

(** The two zeros. *)
Lemma is_zero_cases b : is_zero b = true -> b = 0%float \/ b = (-0)%float.
Proof.
  unfold is_zero. rewrite eqb_spec. unfold SFeqb.
  rewrite <- (SF2Prim_Prim2SF b) at 2 3.
  destruct (Prim2SF b) as [s|s| |s m e]; cbn; try discriminate.
  - intros _. destruct s; [right|left]; reflexivity.
  - destruct s; discriminate.
  - destruct s; discriminate.
Qed.

(** While the queue is ahead of the clock, [Math.max] gives the end of the
    queue: the same Number, or [+0] for [-0]. *)
Lemma Math_max_queued a b :
  (b <=? a)%float = true ->
  (Binary64.Math_max a b =? a)%float = true /\
  (Binary64.Math_max a b = a \/
   (a = (-0)%float /\ Binary64.Math_max a b = 0%float)).
Proof.
  intros H. destruct (leb_not_nan a b H) as [Ha Hb]. unfold Binary64.Math_max.
  rewrite Ha, Hb, (leb_not_ltb a b H). cbn [orb].
  assert (Haa : (a =? a)%float = true).
  { unfold is_nan in Ha. now apply Bool.negb_false_iff in Ha. }
  destruct (is_zero a) eqn:Za; cbn [andb]; [|split; [exact Haa | now left]].
  destruct (is_zero b) eqn:Zb; cbn [andb]; [|split; [exact Haa | now left]].
  destruct (is_zero_cases a Za) as [-> | ->], (is_zero_cases b Zb) as [-> | ->];
    vm_compute; split; auto.
Qed.

Lemma startable_queued a b :
  Binary64.startable a = true -> (b <=? a)%float = true ->
  Binary64.startable (Binary64.Math_max a b) = true.
Proof.
  intros Ha H. destruct (Math_max_queued a b H) as [_ [-> | [_ ->]]];
    [exact Ha | reflexivity].
Qed.

(** The run of [playAudioChunk] on a chunk that decodes, at a start that
    [source.start] accepts. *)
Lemma playAudioChunk_binary64 base64 now node s ctx b :
  Binary64.outputAudioContext s = Some ctx ->
  chunk_buffer base64 = inl b ->
  Binary64.startable (Binary64.Math_max (Binary64.nextStartTime s) now) = true ->
  Binary64.playAudioChunk base64 now node s
  = (Ok tt,
     {| Binary64.outputAudioContext := Binary64.outputAudioContext s;
        Binary64.nextStartTime :=
          (Binary64.Math_max (Binary64.nextStartTime s) now + Binary64.duration b)%float;
        Binary64.sources := set_add node (Binary64.sources s) |},
     [Binary64.SourceStart node (Binary64.Math_max (Binary64.nextStartTime s) now)]).
Proof.
  intros Hctx Hb Hs. unfold Binary64.playAudioChunk. rewrite Hctx, Hb.
  unfold Binary64.start_error. unfold Binary64.startable in Hs.
  apply andb_prop in Hs as [Hf Hn]. rewrite Hf. cbn [negb].
  apply Bool.negb_true_iff in Hn. rewrite Hn. reflexivity.
Qed.

End Binary64Facts.

Section TimelineClaims.
Import Pcm Live Runs Samples.
Import PrimFloat.

Lemma silence_tenth_buffer : chunk_buffer silence_tenth = inl silence_buffer.
Proof. vm_compute. reflexivity. Qed.

(** C2, as stated, fails: the sums are binary64 sums.  Three chunks of a
    tenth of a second, read at clock [5] with nothing queued, start at [5],
    at [5 + d] and at [(5 + d) + d], where [d] is the duration of a chunk
    (the Number nearest to [0.1]) and every sum is rounded.  The third start
    is [5.1999999999999993], one unit in the last place under the Number
    [5 + 0.2]; as a rational it is not [26/5]. *)
Lemma third_start_is_not_two_tenths_later :
  let r1 := Binary64.playAudioChunk silence_tenth 5 10 Binary64.active in
  let r2 := Binary64.playAudioChunk silence_tenth 5 11 (Binary64.state_of r1) in
  let r3 := Binary64.playAudioChunk silence_tenth 5 12 (Binary64.state_of r2) in
  let third := 0x1.4ccccccccccccp+2%float in
  Binary64.duration silence_buffer = 0x1.999999999999ap-4%float /\
  Binary64.trace_of r1 ++ Binary64.trace_of r2 ++ Binary64.trace_of r3
  = [Binary64.SourceStart 10 5;
     Binary64.SourceStart 11 0x1.4666666666666p+2;
     Binary64.SourceStart 12 third] /\
  (third =? 5 + 0x1.999999999999ap-3)%float = false /\
  (third <? 5 + 0x1.999999999999ap-3)%float = true /\
  Binary64.exact third = Some (5854679515581644 # 1125899906842624) /\
  ~ (5854679515581644 # 1125899906842624 == 5 + (2 # 10))%Q.
Proof.
  cbv zeta. repeat split; try (vm_compute; reflexivity).
  vm_compute. discriminate.
Qed.

(** C2, amended: every item that is scheduled starts at
    [Math.max(nextStartTime, now)], ends at its start plus its duration and
    leaves [nextStartTime] at that end, the sum being the binary64 sum.
    Hence three chunks, the later two read while the clock has not passed
    the end of the item before, start with no gap: the first at [t0], the
    second at the end [t0 + d1] of the first and the third at the end
    [a2 + d2] of the second, where each sum is rounded; for chunks of a
    tenth of a second these are [t0 + 0.1] and [t0 + 0.2] up to that
    rounding only. *)
Theorem schedule_back_to_back
    (s : Binary64.Timeline) (ctx : handle)
    (c1 c2 c3 : jsstring) (b1 b2 b3 : AudioBuffer)
    (now1 now2 now3 : PrimFloat.float) (n1 n2 n3 : handle) :
  Binary64.outputAudioContext s = Some ctx ->
  chunk_buffer c1 = inl b1 -> chunk_buffer c2 = inl b2 -> chunk_buffer c3 = inl b3 ->
  let r1 := Binary64.playAudioChunk c1 now1 n1 s in
  let r2 := Binary64.playAudioChunk c2 now2 n2 (Binary64.state_of r1) in
  let r3 := Binary64.playAudioChunk c3 now3 n3 (Binary64.state_of r2) in
  let t0 := Binary64.Math_max (Binary64.nextStartTime s) now1 in
  Binary64.startable t0 = true ->
  Binary64.scheduled s now1 n1 b1 r1 /\
  (let end1 := (t0 + Binary64.duration b1)%float in
   Binary64.startable end1 = true -> (now2 <=? end1)%float = true ->
   exists a2,
     Binary64.scheduled (Binary64.state_of r1) now2 n2 b2 r2 /\
     Binary64.trace_of r1 ++ Binary64.trace_of r2
     = [Binary64.SourceStart n1 t0; Binary64.SourceStart n2 a2] /\
     (a2 =? end1)%float = true /\
     (let end2 := (a2 + Binary64.duration b2)%float in
      Binary64.startable end2 = true -> (now3 <=? end2)%float = true ->
      exists a3,
        Binary64.scheduled (Binary64.state_of r2) now3 n3 b3 r3 /\
        Binary64.trace_of r3 = [Binary64.SourceStart n3 a3] /\
        (a3 =? end2)%float = true)).
Proof.
  intros Hctx E1 E2 E3 r1 r2 r3 t0 Ht0.
  pose proof (playAudioChunk_binary64 c1 now1 n1 s ctx b1 Hctx E1 Ht0) as R1.
  fold r1 t0 in R1.
  split; [rewrite R1; repeat split|].
  intros end1 Hs1 Hq1.
  assert (Hctx1 : Binary64.outputAudioContext (Binary64.state_of r1) = Some ctx)
    by (rewrite R1; exact Hctx).
  assert (N1 : Binary64.nextStartTime (Binary64.state_of r1) = end1)
    by (rewrite R1; reflexivity).
  pose proof (Math_max_queued end1 now2 Hq1) as [Q2 _].
  pose proof (startable_queued end1 now2 Hs1 Hq1) as S2.
  rewrite <- N1 in Q2, S2.
  pose proof (playAudioChunk_binary64 c2 now2 n2 _ ctx b2 Hctx1 E2 S2) as R2.
  fold r2 in R2.
  exists (Binary64.Math_max (Binary64.nextStartTime (Binary64.state_of r1)) now2).
  split; [rewrite R2; repeat split|].
  split; [rewrite R2, R1; reflexivity|].
  split; [rewrite <- N1; exact Q2|].
  intros end2 Hs2 Hq2.
  assert (Hctx2 : Binary64.outputAudioContext (Binary64.state_of r2) = Some ctx)
    by (rewrite R2; exact Hctx1).
  assert (N2 : Binary64.nextStartTime (Binary64.state_of r2) = end2)
    by (rewrite R2; reflexivity).
  pose proof (Math_max_queued end2 now3 Hq2) as [Q3 _].
  pose proof (startable_queued end2 now3 Hs2 Hq2) as S3.
  rewrite <- N2 in Q3, S3.
  pose proof (playAudioChunk_binary64 c3 now3 n3 _ ctx b3 Hctx2 E3 S3) as R3.
  fold r3 in R3.
  exists (Binary64.Math_max (Binary64.nextStartTime (Binary64.state_of r2)) now3).
  split; [rewrite R3; repeat split|].
  split; [rewrite R3; reflexivity|].
  rewrite <- N2. exact Q3.
Qed.

Lemma schedule_back_to_back_witness :
  let r1 := Binary64.playAudioChunk silence_tenth 5 10 Binary64.active in
  let r2 := Binary64.playAudioChunk silence_tenth 5 11 (Binary64.state_of r1) in
  let r3 := Binary64.playAudioChunk silence_tenth 5 12 (Binary64.state_of r2) in
  exists a2 a3,
    Binary64.trace_of r1 ++ Binary64.trace_of r2
    = [Binary64.SourceStart 10 5; Binary64.SourceStart 11 a2] /\
    Binary64.trace_of r3 = [Binary64.SourceStart 12 a3] /\
    (a2 =? 5 + Binary64.duration silence_buffer)%float = true /\
    (a3 =? a2 + Binary64.duration silence_buffer)%float = true.
Proof.
  destruct (schedule_back_to_back Binary64.active 2%nat
              silence_tenth silence_tenth silence_tenth
              silence_buffer silence_buffer silence_buffer
              5%float 5%float 5%float 10%nat 11%nat 12%nat
              eq_refl silence_tenth_buffer silence_tenth_buffer silence_tenth_buffer
              eq_refl) as [_ H].
  destruct (H eq_refl eq_refl) as [a2 [_ [T12 [Q2 H']]]].
  assert (Ha2 : a2 = 0x1.4666666666666p+2%float)
    by (vm_compute in T12; congruence).
  subst a2.
  destruct (H' eq_refl eq_refl) as [a3 [_ [T3 Q3]]].
  exists 0x1.4666666666666p+2%float, a3.
  split; [exact T12|]. split; [exact T3|]. split; [exact Q2 | exact Q3].
Defined.

(** C3, as stated, fails: an interruption read at clock [6] leaves
    [nextStartTime] at [0], not at [6]. *)
Lemma interrupt_resets_to_zero_not_clock :
  sources playing = [10%nat] /\
  nextStartTime (state_of (onmessage {| inlineData := None; interrupted := true |}
                             6 11 playing)) = 0%Q /\
  ~ (nextStartTime (state_of (onmessage {| inlineData := None; interrupted := true |}
                                6 11 playing)) == 6)%Q.
Proof.
  split; [vm_compute; reflexivity|].
  split; [vm_compute; reflexivity|].
  vm_compute. discriminate.
Qed.

(** C3, amended: after [stopAudioPlayback] every source of the set has
    received [stop], the set is empty and [nextStartTime] is [0] whatever the
    clock reads; for a clock that is not negative this is at most the clock,
    and the next item scheduled starts at the clock. *)
Theorem interrupt_clears_and_zeroes (s : LiveService) (now : Q) :
  (0 <= now)%Q ->
  let r := stopAudioPlayback s in
  result_of r = Ok tt /\
  trace_of r = map SourceStop (sources s) /\
  sources (state_of r) = [] /\
  nextStartTime (state_of r) = 0%Q /\
  (nextStartTime (state_of r) <= now)%Q /\
  same_resources s (state_of r) /\
  (Qmax (nextStartTime (state_of r)) now == now)%Q.
Proof.
  intros Hnow r. unfold r. rewrite stopAudioPlayback_run. cbn.
  repeat split; try reflexivity; try assumption.
  now apply Q.max_r.
Qed.

Lemma interrupt_clears_and_zeroes_witness :
  let r := stopAudioPlayback playing in
  result_of r = Ok tt /\
  trace_of r = map SourceStop (sources playing) /\
  sources (state_of r) = [] /\
  nextStartTime (state_of r) = 0%Q /\
  (nextStartTime (state_of r) <= 6)%Q /\
  same_resources playing (state_of r) /\
  (Qmax (nextStartTime (state_of r)) 6 == 6)%Q.
Proof.
  apply (interrupt_clears_and_zeroes playing 6). vm_compute. discriminate.
Defined.

(** C4, as stated, fails: [cleanup] is not an interruption, and it takes
    [nextStartTime] from [5.1] back to [0]. *)
Lemma cleanup_moves_nextStartTime_back :
  is_schedule Cleanup = false /\
  (nextStartTime playing == 51 # 10)%Q /\
  nextStartTime (state_of (run_op Cleanup playing)) = 0%Q /\
  ~ (nextStartTime playing <= nextStartTime (state_of (run_op Cleanup playing)))%Q.
Proof.
  split; [reflexivity|].
  split; [vm_compute; reflexivity|].
  split; [vm_compute; reflexivity|].
  vm_compute. intros H. apply H. reflexivity.
Qed.

(** C4, amended: after any sequence of operations, a scheduling step
    never lowers [nextStartTime], whether the chunk is played, rejected or
    ignored; an interruption and a cleanup, which both go through
    [stopAudioPlayback], set it to [0]. *)
Theorem nextStartTime_monotone_but_resets (ops : list Op) (op : Op) (s : LiveService) :
  let before := run_ops ops s in
  let after := state_of (run_op op before) in
  if is_schedule op
  then (nextStartTime before <= nextStartTime after)%Q
  else nextStartTime after = 0%Q.
Proof.
  cbv zeta. generalize (run_ops ops s). intros before.
  destruct op as [base64 now node| |]; cbn [is_schedule run_op].
  - apply playAudioChunk_monotone.
  - rewrite stopAudioPlayback_run. reflexivity.
  - rewrite cleanup_run. reflexivity.
Qed.

End TimelineClaims.
(* ================================================================= *)
(** ** Teardown, start-up failures and malformed chunks *)

Section LifecycleFacts.
Import Pcm Live Runs Samples.

Lemma filter_SourceStop (f : Event -> bool) l :
  (forall n, f (SourceStop n) = false) -> filter f (map SourceStop l) = [].
Proof.
  intros Hf. induction l as [|n l IH]; cbn; [reflexivity|]. now rewrite Hf.
Qed.

(** A cleanup announces itself once, and neither connects nor reports. *)
Lemma cleanup_trace_marks s :
  filter is_cleanup (trace_of (cleanup s)) = [EnterCleanup] /\
  filter is_on_error (trace_of (cleanup s)) = [] /\
  filter is_live_connect (trace_of (cleanup s)) = [].
Proof.
  rewrite cleanup_run. cbn [trace_of snd filter is_cleanup is_on_error is_live_connect].
  rewrite !filter_app, !filter_SourceStop by reflexivity.
  destruct (processor s), (sourceNode s), (stream s), (inputAudioContext s),
    (outputAudioContext s); repeat split; reflexivity.
Qed.

Lemma teardown_state how s : state_of (teardown how s) = new_LiveService.
Proof. destruct how; cbn [teardown]; [rewrite cleanup_run | rewrite disconnect_run]; reflexivity. Qed.

Lemma teardown_new_LiveService how :
  teardown how new_LiveService = (Ok tt, new_LiveService, [EnterCleanup]).
Proof. destruct how; cbn [teardown]; [rewrite cleanup_run | rewrite disconnect_run]; reflexivity. Qed.

(** Teardowns of a service that holds nothing let go of nothing. *)
Lemma teardowns_new_LiveService hows :
  teardowns hows new_LiveService
  = (new_LiveService, repeat EnterCleanup (List.length hows)).
Proof.
  induction hows as [|how r IH]; cbn [teardowns List.length repeat]; [reflexivity|].
  rewrite teardown_new_LiveService. cbn [state_of trace_of fst snd].
  rewrite IH. reflexivity.
Qed.

Lemma filter_release_marks n : filter is_release (repeat EnterCleanup n) = [].
Proof. induction n; cbn; auto. Qed.

(** The list that stands for the Set holds a source once, so a teardown
    stops it once. *)
Lemma set_add_NoDup n l : NoDup l -> NoDup (set_add n l).
Proof.
  intros Hl. unfold set_add.
  destruct (existsb (Nat.eqb n) l) eqn:E; [assumption|].
  apply NoDup_app; [assumption | repeat constructor; intros [] | ].
  intros x Hx [Hn|[]]. subst x.
  assert (existsb (Nat.eqb n) l = true); [|congruence].
  apply existsb_exists. exists n. split; [assumption | apply Nat.eqb_refl].
Qed.

Lemma playAudioChunk_NoDup base64 now node s :
  NoDup (sources s) ->
  NoDup (sources (state_of (playAudioChunk base64 now node s))).
Proof.
  intros Hs. destruct (outputAudioContext s) as [ctx|] eqn:H.
  - destruct (chunk_buffer base64) as [b|e] eqn:E.
    + rewrite (playAudioChunk_scheduled _ _ _ _ _ _ H E). cbn.
      now apply set_add_NoDup.
    + now rewrite (playAudioChunk_thrown _ _ _ _ _ _ H E).
  - now rewrite (playAudioChunk_detached _ _ _ _ H).
Qed.

(** A hang-up while the session is still awaited closes nothing, and the
    session that arrives afterwards is stored in the object torn down. *)
Example session_settles_after_disconnect :
  let connecting := state_of (connect granted new_LiveService) in
  session connecting = None /\
  filter is_release (trace_of (disconnect connecting))
  = [StreamStop 3; ContextClose 1; ContextClose 2] /\
  session (state_of (connect_settled (inl 7%nat) (state_of (disconnect connecting))))
  = Some 7%nat.
Proof. cbv zeta. repeat split. Qed.

(** [connect] without a capture interface. *)
Lemma connect_unsupported env s :
  mediaDevices env = false ->
  connect env s
  = (Ok false, new_LiveService,
     [ConsoleError "Failed to connect live session";
      OnError (Error
        "Microphone access is not supported in this environment (HTTP or no hardware).")]
       ++ trace_of (cleanup s)).
Proof.
  intros H. unfold connect, connect_catch, try_catch, bind, throw, emit, ret.
  rewrite H. cbn -[cleanup]. rewrite cleanup_run. cbn. now rewrite ?app_nil_r.
Qed.

(** [connect] when the microphone is refused: the two contexts created
    before the request are closed by the cleanup. *)
Lemma connect_denied env s :
  mediaDevices env = true -> getUserMedia env = None ->
  connect env s
  = (Ok false, new_LiveService,
     [ConsoleError "getUserMedia error:";
      ConsoleError "Failed to connect live session";
      OnError (Error
        "Could not access microphone. Please check permissions and ensure a microphone is connected.")]
       ++ trace_of (cleanup
            (set_outputAudioContext (Some (outputCtx env))
               (set_inputAudioContext (Some (inputCtx env)) s)))).
Proof.
  intros H1 H2. unfold connect, connect_catch, try_catch, bind, throw, emit, ret, assign.
  rewrite H1, H2. cbn -[cleanup]. rewrite !cleanup_run. cbn. now rewrite ?app_nil_r.
Qed.

(** [connect] when the microphone is granted: the transport is asked for
    a session and the method waits. *)
Lemma connect_granted env s m :
  mediaDevices env = true -> getUserMedia env = Some m ->
  connect env s
  = (Ok true,
     set_stream (Some m)
       (set_outputAudioContext (Some (outputCtx env))
          (set_inputAudioContext (Some (inputCtx env)) s)),
     [LiveConnect]).
Proof.
  intros H1 H2. unfold connect, try_catch, bind, throw, emit, ret, assign.
  rewrite H1, H2. reflexivity.
Qed.

Lemma int16_view_odd : forall bytes,
  Nat.odd (List.length bytes) = true -> int16_view bytes = None.
Proof.
  fix IH 1. intros [|lo [|hi r]]; intros H.
  - discriminate.
  - reflexivity.
  - cbn [int16_view]. rewrite (IH r); [reflexivity|].
    cbn [List.length] in H. now rewrite Nat.odd_succ_succ in H.
Qed.

Lemma int16_view_even : forall bytes,
  Nat.odd (List.length bytes) = false ->
  exists l, int16_view bytes = Some l /\ (l = [] <-> bytes = []).
Proof.
  fix IH 1. intros [|lo [|hi r]]; intros H.
  - exists []. repeat split.
  - discriminate.
  - cbn [List.length] in H. rewrite Nat.odd_succ_succ in H.
    destruct (IH r H) as [l [E _]]. cbn [int16_view]. rewrite E.
    eexists. split; [reflexivity|]. split; discriminate.
Qed.

(** Which chunks [playAudioChunk] cannot decode: the malformed ones, and
    the text that decodes to no byte at all. *)
Lemma chunk_buffer_fails base64 :
  (exists e, chunk_buffer base64 = inr e)
  <-> (malformed base64 = true \/ Base64.decode base64 = Some []).
Proof.
  unfold chunk_buffer, malformed, decodeAudioData.
  destruct (Base64.decode base64) as [bytes|].
  - destruct (Nat.odd (List.length bytes)) eqn:Hodd.
    + rewrite (int16_view_odd _ Hodd). split; eauto.
    + destruct (int16_view_even _ Hodd) as [l [E Hnil]]. rewrite E.
      rewrite Nat.div_1_r.
      change (supported_rate 24000) with true.
      change (supported_channels 1) with true.
      rewrite andb_true_r, andb_true_l.
      destruct l as [|v l]; cbn [List.length supported_length Nat.leb negb].
      * split; [intros _; right; f_equal; now apply Hnil | eauto].
      * split; [intros [e He]; discriminate|].
        intros [Hm|Hd]; [discriminate|].
        injection Hd as ->. destruct Hnil as [_ Hnil]. now specialize (Hnil eq_refl).
  - split; eauto.
Qed.

Lemma createBlob_total samples : exists blob, createBlob samples = Some blob.
Proof.
  unfold createBlob.
  destruct (decode_encode_bytes _ (uint8_view_bytes (map quantize samples)))
    as [text [E _]].
  rewrite E. eauto.
Qed.

(** While the session is awaited every captured frame joins the end of
    the waiting queue. *)
Lemma capture_pending buffers : forall waiting,
  exists blobs,
    Forall2 (fun b blob => createBlob b = Some blob) buffers blobs /\
    capture buffers (Pending waiting) = (Pending (waiting ++ blobs), []).
Proof.
  induction buffers as [|b r IH]; intros waiting; cbn [capture].
  - exists []. split; [constructor | now rewrite app_nil_r].
  - destruct (createBlob_total b) as [blob E].
    unfold onaudioprocess. rewrite E. cbn [then_send].
    destruct (IH (waiting ++ [blob])) as [blobs [F C]]. rewrite C.
    exists (blob :: blobs). split; [now constructor|].
    now rewrite <- app_assoc.
Qed.

(** Once the session is there every captured frame is sent at once. *)
Lemma capture_fulfilled h buffers :
  exists blobs,
    Forall2 (fun b blob => createBlob b = Some blob) buffers blobs /\
    capture buffers (Fulfilled h) = (Fulfilled h, map (SendRealtimeInput h) blobs).
Proof.
  induction buffers as [|b r [blobs [F C]]]; cbn [capture].
  - exists []. split; [constructor | reflexivity].
  - destruct (createBlob_total b) as [blob E].
    unfold onaudioprocess. rewrite E. cbn [then_send]. rewrite C.
    exists (blob :: blobs). split; [now constructor | reflexivity].
Qed.

Lemma Forall2_createBlob_functional buffers : forall blobs blobs',
  Forall2 (fun b blob => createBlob b = Some blob) buffers blobs ->
  Forall2 (fun b blob => createBlob b = Some blob) buffers blobs' ->
  blobs = blobs'.
Proof.
  induction buffers as [|b r IH]; intros blobs blobs' F F';
    inversion F; inversion F'; subst; [reflexivity|].
  f_equal; [congruence | now apply IH].
Qed.

End LifecycleFacts.
Section LifecycleClaims.
Import Pcm Live Runs Samples.

(** C5, as stated, fails for the connection handle: [cleanup] on a service
    that holds session [7] forgets the session without closing it, so that
    no later teardown can close it either. *)
Lemma cleanup_forgets_session_unclosed :
  session active = Some 7%nat /\
  stream active = Some 3%nat /\
  filter is_release (snd (teardowns [ByCleanup; ByDisconnect; ByCleanup] active))
  = [ProcessorDisconnect 5; SourceNodeDisconnect 4; StreamStop 3;
     ContextClose 1; ContextClose 2] /\
  ~ In (SessionClose 7) (snd (teardowns [ByCleanup; ByDisconnect; ByCleanup] active)).
Proof.
  repeat split; try (vm_compute; reflexivity).
  vm_compute. intros H.
  repeat (destruct H as [H|H]; [discriminate|]). exact H.
Qed.

(** C5, amended: the first teardown stops every source of the set and
    releases each device the service holds, once, and leaves the object as a
    new one; the session is closed by [disconnect] only, [cleanup] merely
    forgets it; over any further teardowns nothing more is released. *)
Theorem teardown_releases_once (how : Teardown) (hows : list Teardown) (s : LiveService) :
  let first := teardown how s in
  result_of first = Ok tt /\
  state_of first = new_LiveService /\
  trace_of first
  = match how with
    | ByDisconnect => released SessionClose (session s)
    | ByCleanup => []
    end
    ++ EnterCleanup :: map SourceStop (sources s)
    ++ released ProcessorDisconnect (processor s)
    ++ released SourceNodeDisconnect (sourceNode s)
    ++ released StreamStop (stream s)
    ++ released ContextClose (inputAudioContext s)
    ++ released ContextClose (outputAudioContext s) /\
  fst (teardowns (how :: hows) s) = new_LiveService /\
  filter is_release (snd (teardowns (how :: hows) s))
  = filter is_release (trace_of first).
Proof.
  cbv zeta. cbn [teardowns]. rewrite teardown_state, teardowns_new_LiveService.
  cbn [fst snd]. rewrite filter_app, filter_release_marks, app_nil_r.
  destruct how; cbn [teardown];
    [rewrite cleanup_run | rewrite disconnect_run, cleanup_run];
    repeat split; reflexivity.
Qed.

(** C6: without a capture interface, or with the microphone refused,
    [connect] gives up without asking the transport for a session: no
    [ai.live.connect] call, the error reported once through [onError] with
    the message of the case, [cleanup] entered once, and the object left as
    a new one, every context opened on the way closed. *)
Theorem connect_fails_before_transport (env : Env) (s : LiveService) :
  mediaDevices env = false \/ getUserMedia env = None ->
  let r := connect env s in
  result_of r = Ok false /\
  filter is_live_connect (trace_of r) = [] /\
  filter is_on_error (trace_of r)
  = [OnError (Error
       (if mediaDevices env
        then "Could not access microphone. Please check permissions and ensure a microphone is connected."
        else "Microphone access is not supported in this environment (HTTP or no hardware)."))] /\
  filter is_cleanup (trace_of r) = [EnterCleanup] /\
  state_of r = new_LiveService /\
  (mediaDevices env = true ->
   In (ContextClose (inputCtx env)) (trace_of r) /\
   In (ContextClose (outputCtx env)) (trace_of r)).
Proof.
  intros Hfail r. unfold r.
  destruct (mediaDevices env) eqn:Hm.
  - destruct Hfail as [Hfail|Hg]; [discriminate|].
    rewrite (connect_denied env s Hm Hg).
    cbn [result_of state_of trace_of fst snd].
    match goal with |- context [cleanup ?x] =>
      destruct (cleanup_trace_marks x) as [C1 [C2 C3]]; remember x as s' end.
    cbn [app filter is_live_connect is_on_error is_cleanup].
    rewrite C1, C2, C3. repeat split; try reflexivity.
    + rewrite cleanup_run, Heqs'. cbn [trace_of snd].
      do 4 apply in_cons. rewrite !in_app_iff. do 4 right. left. now left.
    + rewrite cleanup_run, Heqs'. cbn [trace_of snd].
      do 4 apply in_cons. rewrite !in_app_iff. do 5 right. now left.
  - rewrite (connect_unsupported env s Hm).
    cbn [result_of state_of trace_of fst snd].
    destruct (cleanup_trace_marks s) as [C1 [C2 C3]].
    cbn [app filter is_live_connect is_on_error is_cleanup].
    rewrite C1, C2, C3. repeat split; try reflexivity; discriminate.
Qed.

Lemma connect_fails_before_transport_witness :
  let r := connect denied new_LiveService in
  result_of r = Ok false /\
  filter is_live_connect (trace_of r) = [] /\
  filter is_on_error (trace_of r)
  = [OnError (Error
       "Could not access microphone. Please check permissions and ensure a microphone is connected.")] /\
  filter is_cleanup (trace_of r) = [EnterCleanup] /\
  state_of r = new_LiveService /\
  In (ContextClose (inputCtx denied)) (trace_of r) /\
  In (ContextClose (outputCtx denied)) (trace_of r).
Proof.
  destruct (connect_fails_before_transport denied new_LiveService (or_intror eq_refl))
    as [H1 [H2 [H3 [H4 [H5 H6]]]]].
  destruct (H6 eq_refl) as [H7 H8].
  repeat split; assumption.
Defined.

(** C8, as stated, fails on two counts, shown on a message that carries a
    chunk that is not base64 together with the interruption flag, while
    source [10] plays: nothing is written to the console, and the exception
    leaves [onmessage] before the flag is read, so the source is not
    stopped. *)
Lemma malformed_chunk_is_not_logged :
  let message := {| inlineData := Some (lit "AA$A"); interrupted := true |} in
  let r := onmessage message 6 11 playing in
  malformed (lit "AA$A") = true /\
  result_of r = Throw InvalidCharacterError /\
  filter is_console (trace_of r) = [] /\
  sources playing = [10%nat] /\
  sources (state_of r) = [10%nat] /\
  ~ In (SourceStop 10) (trace_of r).
Proof.
  cbv zeta. repeat split; try (vm_compute; reflexivity).
  vm_compute. intros H. exact H.
Qed.

(** C8, amended: for a service with an output context, a message whose
    chunk is malformed makes [onmessage] throw the exception of the decoding;
    no event at all takes place (no source is started, nothing is torn down,
    [onError] is not called, nothing is logged), the object is unchanged but
    for [nextStartTime], already raised to the clock if that is later, and
    the rest of the handler, the reading of the interruption flag, is not
    run. *)
Theorem malformed_chunk_rejected
    (s : LiveService) (ctx : handle) (message : Message) (c : Z) (rest : jsstring)
    (now : Q) (node : handle) :
  outputAudioContext s = Some ctx ->
  inlineData message = Some (c :: rest) ->
  malformed (c :: rest) = true ->
  exists e,
    chunk_buffer (c :: rest) = inr e /\
    onmessage message now node s
    = (Throw e, set_nextStartTime (Qmax (nextStartTime s) now) s, []).
Proof.
  intros Hctx Hdata Hbad.
  destruct (proj2 (chunk_buffer_fails (c :: rest)) (or_introl Hbad)) as [e He].
  exists e. split; [exact He|].
  unfold onmessage, bind. rewrite Hdata.
  now rewrite (playAudioChunk_thrown _ _ _ _ _ _ Hctx He).
Qed.

Lemma malformed_chunk_rejected_witness :
  exists e,
    chunk_buffer (lit "AAAA") = inr e /\
    onmessage {| inlineData := Some (lit "AAAA"); interrupted := false |} 6 11 playing
    = (Throw e, set_nextStartTime (Qmax (nextStartTime playing) 6) playing, []).
Proof.
  exact (malformed_chunk_rejected playing 2%nat
           {| inlineData := Some (lit "AAAA"); interrupted := false |}
           65 [65; 65; 65] 6 11%nat eq_refl eq_refl eq_refl).
Defined.

(** C9, as stated, fails: the frames captured while the session is
    awaited are all kept, so no bound holds on the waiting queue. *)
Lemma waiting_queue_is_unbounded :
  ~ exists bound : nat,
      forall buffers : list (list Q),
        (waiting_frames (fst (capture buffers (Pending []))) <= bound)%nat.
Proof.
  intros [bound H].
  specialize (H (repeat [] (S bound))).
  destruct (capture_pending (repeat [] (S bound)) []) as [blobs [F C]].
  rewrite C in H. cbn [fst waiting_frames app] in H.
  apply Forall2_length in F. rewrite repeat_length in F. lia.
Qed.

(** C9, amended: a capture callback only registers a reaction on the
    session promise and returns; while the promise is pending the frames
    wait in an unbounded queue from which none is dropped, and when it is
    fulfilled they are all sent, in capture order; afterwards each frame is
    sent as it is captured. *)
Theorem capture_keeps_every_frame (buffers : list (list Q)) (h : handle) :
  exists blobs,
    Forall2 (fun b blob => createBlob b = Some blob) buffers blobs /\
    capture buffers (Pending []) = (Pending blobs, []) /\
    fulfil h (Pending blobs) = (Fulfilled h, map (SendRealtimeInput h) blobs) /\
    capture buffers (Fulfilled h) = (Fulfilled h, map (SendRealtimeInput h) blobs).
Proof.
  destruct (capture_pending buffers []) as [blobs [F C]].
  destruct (capture_fulfilled h buffers) as [blobs' [F' C']].
  rewrite (Forall2_createBlob_functional _ _ _ F' F) in C'.
  exists blobs. repeat split; assumption.
Qed.

End LifecycleClaims.
(* ================================================================= *)
(** ** Starting a call from the component *)

Section AppFacts.
Import Live Runs Samples App.



(** The service and the events of a start that succeeds: the session is
    asked for, [onopen] starts the capture, and the session is kept. *)
Lemma start_service_opened env m h :
  mediaDevices env = true -> getUserMedia env = Some m ->
  start_service env (inl h)
  = (set_session (Some h)
       (set_processor (Some (scriptProcessor env))
          (set_sourceNode (Some (mediaStreamSource env))
             (set_stream (Some m)
                (set_outputAudioContext (Some (outputCtx env))
                   (set_inputAudioContext (Some (inputCtx env)) new_LiveService))))),
     [LiveConnect; ConsoleLog "Live Session Connected";
      CaptureStart m (scriptProcessor env)]).
Proof.
  intros Hm Hg. unfold start_service.
  rewrite (connect_granted env _ m Hm Hg). reflexivity.
Qed.

End AppFacts.

Section AppClaims.
Import Live Runs Samples App.




End AppClaims.

(* ================================================================= *)
(** * Further properties of the audio helpers *)

Section PcmMore.
Import Pcm.

Lemma int16_view_range : forall bytes l,
  int16_view bytes = Some l -> Forall is_int16 l.
Proof.
  fix IH 1. intros [|lo [|hi r]] l E; cbn [int16_view] in E.
  - injection E as <-. constructor.
  - discriminate.
  - destruct (int16_view r) as [l'|] eqn:Er; [|discriminate].
    injection E as <-. constructor; [apply toInt16_range | now apply (IH r)].
Qed.

Lemma int16_view_length : forall bytes l,
  int16_view bytes = Some l -> List.length bytes = (2 * List.length l)%nat.
Proof.
  fix IH 1. intros [|lo [|hi r]] l E; cbn [int16_view] in E.
  - injection E as <-. reflexivity.
  - discriminate.
  - destruct (int16_view r) as [l'|] eqn:Er; [|discriminate].
    injection E as <-. cbn [List.length]. rewrite (IH r l' Er). lia.
Qed.

Lemma bytes_of_toInt16 lo hi :
  is_byte lo -> is_byte hi -> bytes_of_int16 (toInt16 (lo + 256 * hi)) = [lo; hi].
Proof.
  unfold is_byte, bytes_of_int16, toInt16. intros Hlo Hhi. cbv zeta.
  destruct (32768 <=? _) eqn:E;
    [apply Z.leb_le in E | apply Z.leb_gt in E];
    (f_equal; [|f_equal]); revert E; Z.div_mod_to_equations; lia.
Qed.

Lemma uint8_view_int16_view : forall bytes l,
  Forall is_byte bytes -> int16_view bytes = Some l -> uint8_view l = bytes.
Proof.
  fix IH 1. intros [|lo [|hi r]] l Hb E; cbn [int16_view] in E.
  - injection E as <-. reflexivity.
  - discriminate.
  - destruct (int16_view r) as [l'|] eqn:Er; [|discriminate].
    cbn [option_map] in E.
    assert (El : toInt16 (lo + 256 * hi) :: l' = l) by congruence.
    subst l. clear E.
    inversion_clear Hb as [|? ? Hlo Hb']. inversion_clear Hb' as [|? ? Hhi Hr].
    cbn [uint8_view flat_map]. rewrite bytes_of_toInt16 by assumption.
    cbn [app]. do 2 f_equal. now apply (IH r).
Qed.

Lemma dequantize_range v :
  is_int16 v -> (-1 <= dequantize v)%Q /\ (dequantize v < 1)%Q.
Proof.
  unfold is_int16, dequantize. intros [Hlo Hhi].
  split.
  - apply Qle_shift_div_l; [reflexivity|].
    change (-1 * 32768)%Q with (inject_Z (-32768)). rewrite <- Zle_Qle. lia.
  - apply Qlt_shift_div_r; [reflexivity|].
    change (1 * 32768)%Q with (inject_Z 32768). rewrite <- Zlt_Qlt. lia.
Qed.

Lemma truncate_opp x : truncate (- x) = - truncate x.
Proof.
  destruct x as [n d]. unfold truncate. cbn. apply Z.quot_opp_l. lia.
Qed.

Lemma truncate_le x y : (x <= y)%Q -> truncate x <= truncate y.
Proof.
  intros Hxy.
  destruct (Qlt_le_dec x 0) as [Hx|Hx]; destruct (Qlt_le_dec y 0) as [Hy|Hy].
  - destruct (truncate_nonpos x) as [_ A]; [lra|].
    destruct (truncate_nonpos y) as [B _]; [lra|].
    assert (H : (inject_Z (truncate x) < inject_Z (truncate y + 1))%Q)
      by (rewrite inject_Z_plus; change (inject_Z 1) with 1%Q; lra).
    rewrite <- Zlt_Qlt in H. lia.
  - destruct (truncate_nonpos x) as [_ A]; [lra|].
    destruct (truncate_nonneg y Hy) as [_ B].
    assert (H : (inject_Z (truncate x) < inject_Z (truncate y + 2))%Q)
      by (rewrite inject_Z_plus; change (inject_Z 2) with 2%Q; lra).
    rewrite <- Zlt_Qlt in H.
    (* the truncation of a negative number is at most zero, that of a
       non-negative one at least zero *)
    assert (Hx0 : (inject_Z (truncate x) < inject_Z 1)%Q)
      by (change (inject_Z 1) with 1%Q; lra).
    assert (Hy0 : (inject_Z (-1) < inject_Z (truncate y))%Q)
      by (change (inject_Z (-1)) with (-1)%Q; lra).
    rewrite <- Zlt_Qlt in Hx0, Hy0. lia.
  - lra.
  - destruct (truncate_nonneg x Hx) as [A _].
    destruct (truncate_nonneg y Hy) as [_ B].
    assert (H : (inject_Z (truncate x) < inject_Z (truncate y + 1))%Q)
      by (rewrite inject_Z_plus; change (inject_Z 1) with 1%Q; lra).
    rewrite <- Zlt_Qlt in H. lia.
Qed.

End PcmMore.
Section PcmMoreTheorems.
Import Pcm.

(** X1: the two typed-array views over one buffer undo each other: an even
    number of bytes read as 16-bit samples and written back as bytes is
    unchanged, and the samples read are stable under a further round. *)
Theorem int16_views_round_trip (bytes : list Z) :
  Forall is_byte bytes ->
  Nat.even (List.length bytes) = true ->
  exists l,
    int16_view bytes = Some l /\
    Forall is_int16 l /\
    List.length bytes = (2 * List.length l)%nat /\
    uint8_view l = bytes /\
    int16_view (uint8_view l) = Some l.
Proof.
  intros Hb Heven.
  assert (Hodd : Nat.odd (List.length bytes) = false)
    by (rewrite <- Nat.negb_even, Heven; reflexivity).
  destruct (int16_view_even bytes Hodd) as [l [E _]].
  pose proof (int16_view_range bytes l E) as Hl.
  exists l. split; [exact E|]. split; [exact Hl|].
  split; [exact (int16_view_length bytes l E)|].
  split; [now apply uint8_view_int16_view|].
  now apply int16_view_uint8_view.
Qed.

Lemma int16_views_round_trip_witness :
  exists l,
    int16_view [0; 128; 255; 255; 2; 1] = Some l /\
    Forall is_int16 l /\
    List.length [0; 128; 255; 255; 2; 1] = (2 * List.length l)%nat /\
    uint8_view l = [0; 128; 255; 255; 2; 1] /\
    int16_view (uint8_view l) = Some l.
Proof.
  apply (int16_views_round_trip [0; 128; 255; 255; 2; 1]).
  - repeat constructor; unfold is_byte; lia.
  - reflexivity.
Defined.

Lemma nth_int16 l k : Forall is_int16 l -> is_int16 (nth k l 0).
Proof.
  intros Hl. destruct (nth_in_or_default k l 0) as [Hin| ->].
  - rewrite Forall_forall in Hl. now apply Hl.
  - unfold is_int16. lia.
Qed.

(** X2: whenever [decodeAudioData] returns a buffer, it has the requested
    rate and number of channels, every channel has the length of the buffer,
    and every sample lies in [-1, 1). *)
Theorem decoded_samples_normalised
    (bytes : list Z) (rate : Z) (numChannels : nat) (b : AudioBuffer) :
  decodeAudioData bytes rate numChannels = inl b ->
  sampleRate b = rate /\
  List.length (channels b) = numChannels /\
  (0 < frames b)%nat /\
  (2 * (frames b * numChannels) <= List.length bytes)%nat /\
  Forall (fun channel =>
            List.length channel = frames b /\
            Forall (fun y => (-1 <= y)%Q /\ (y < 1)%Q) channel)
         (channels b).
Proof.
  unfold decodeAudioData.
  destruct (int16_view bytes) as [l|] eqn:E; [|discriminate].
  pose proof (int16_view_range _ _ E) as Hl.
  pose proof (int16_view_length _ _ E) as Hlen.
  destruct (negb _) eqn:Hc; [discriminate|].
  apply negb_false_iff in Hc.
  apply andb_prop in Hc as [Hc _]. apply andb_prop in Hc as [Hn Hf].
  apply andb_prop in Hn as [Hn _].
  apply Nat.leb_le in Hf, Hn.
  intros Eb. injection Eb as <-. cbn [sampleRate channels frames].
  split; [reflexivity|].
  split; [now rewrite length_map, length_seq|].
  split; [lia|].
  split.
  - rewrite Hlen. pose proof (Nat.Div0.mul_div_le (List.length l) numChannels). lia.
  - apply Forall_forall. intros channel Hin.
    apply in_map_iff in Hin as [c [<- _]].
    split; [now rewrite length_map, length_seq|].
    apply Forall_forall. intros y Hy.
    apply in_map_iff in Hy as [i [<- _]].
    apply dequantize_range. now apply nth_int16.
Qed.

Lemma decoded_samples_normalised_witness :
  sampleRate Samples.silence_buffer = 24000 /\
  List.length (channels Samples.silence_buffer) = 1%nat /\
  (0 < frames Samples.silence_buffer)%nat /\
  (2 * (frames Samples.silence_buffer * 1) <= 4800)%nat /\
  Forall (fun channel =>
            List.length channel = frames Samples.silence_buffer /\
            Forall (fun y => (-1 <= y)%Q /\ (y < 1)%Q) channel)
         (channels Samples.silence_buffer).
Proof.
  apply (decoded_samples_normalised (repeat 0 4800) 24000 1 Samples.silence_buffer).
  vm_compute. reflexivity.
Defined.

(** X3: the three outcomes of [decodeAudioData].  It fails with RangeError
    exactly on an odd number of bytes.  On an even number it fails with
    NotSupportedError exactly when [createBuffer] refuses its arguments: no
    channel or more than 32 of them, fewer samples than channels (so no
    frame, which covers the empty input), or a rate outside
    [3000, 768000].  Every other input gives a buffer of the requested
    rate whose length is the number of samples divided by the number of
    channels. *)
Theorem decodeAudioData_outcome (bytes : list Z) (rate : Z) (numChannels : nat) :
  match decodeAudioData bytes rate numChannels with
  | inl b =>
      Nat.even (List.length bytes) = true /\
      (1 <= numChannels <= 32)%nat /\
      (numChannels <= List.length bytes / 2)%nat /\
      3000 <= rate <= 768000 /\
      frames b = (List.length bytes / 2 / numChannels)%nat /\
      sampleRate b = rate
  | inr RangeError => Nat.odd (List.length bytes) = true
  | inr NotSupportedError =>
      Nat.even (List.length bytes) = true /\
      (numChannels = 0%nat \/ (32 < numChannels)%nat \/
       (List.length bytes / 2 < numChannels)%nat \/
       rate < 3000 \/ 768000 < rate)
  end.
Proof.
  unfold decodeAudioData.
  destruct (Nat.odd (List.length bytes)) eqn:Hodd.
  - now rewrite (int16_view_odd _ Hodd).
  - destruct (int16_view_even _ Hodd) as [l [E Hnil]]. rewrite E.
    pose proof (int16_view_length _ _ E) as Hlen.
    assert (Hhalf : (List.length bytes / 2 = List.length l)%nat).
    { rewrite Hlen, Nat.mul_comm. now apply Nat.div_mul. }
    assert (Heven : Nat.even (List.length bytes) = true).
    { now rewrite <- Nat.negb_odd, Hodd. }
    rewrite Hhalf.
    unfold supported_channels, supported_length, supported_rate.
    destruct (1 <=? numChannels)%nat eqn:H1;
      [apply Nat.leb_le in H1 | apply Nat.leb_gt in H1];
      cbn [andb negb]; [|split; [assumption | left; lia]].
    destruct (numChannels <=? 32)%nat eqn:H2;
      [apply Nat.leb_le in H2 | apply Nat.leb_gt in H2];
      cbn [andb negb]; [|split; [assumption | right; left; lia]].
    destruct (1 <=? List.length l / numChannels)%nat eqn:H3;
      [apply Nat.leb_le in H3 | apply Nat.leb_gt in H3];
      cbn [andb negb].
    2:{ split; [assumption|]. right; right; left.
        apply Nat.lt_1_r in H3. apply Nat.div_small_iff in H3; lia. }
    assert (H3' : (numChannels <= List.length l)%nat).
    { destruct (Nat.le_gt_cases numChannels (List.length l)) as [Hle|Hgt];
        [assumption|].
      rewrite (Nat.div_small _ _ Hgt) in H3. lia. }
    destruct (3000 <=? rate) eqn:H4;
      [apply Z.leb_le in H4 | apply Z.leb_gt in H4];
      cbn [andb negb]; [|split; [assumption | do 3 right; left; lia]].
    destruct (rate <=? 768000) eqn:H5;
      [apply Z.leb_le in H5 | apply Z.leb_gt in H5];
      cbn [andb negb]; [|split; [assumption | do 4 right; lia]].
    cbn [frames sampleRate]. repeat split; try assumption; lia.
Qed.

(** X4: below full scale the quantizer is odd: a sample and its opposite
    are stored as opposite integers (the store truncates toward zero). *)
Theorem quantize_odd_symmetric (s : Q) :
  (-1 < s)%Q -> (s < 1)%Q -> quantize (- s) = - quantize s.
Proof.
  intros Hlo Hhi.
  rewrite !quantize_truncates by lra.
  destruct s as [n d]. unfold truncate. cbn.
  replace (- n * 32768) with (- (n * 32768)) by ring.
  apply Z.quot_opp_l. lia.
Qed.

Lemma quantize_odd_symmetric_witness :
  quantize (- (1 # 3)) = - quantize (1 # 3).
Proof.
  apply (quantize_odd_symmetric (1 # 3)); vm_compute; reflexivity.
Defined.

(** X5: below full scale the quantizer is monotone: a larger sample is never
    stored as a smaller integer. *)
Theorem quantize_monotone (s t : Q) :
  (-1 <= s)%Q -> (s <= t)%Q -> (t < 1)%Q -> quantize s <= quantize t.
Proof.
  intros Hlo Hst Hhi.
  rewrite !quantize_truncates by lra.
  apply truncate_le. lra.
Qed.

Lemma quantize_monotone_witness : quantize (-1 # 2) <= quantize (1 # 3).
Proof.
  apply (quantize_monotone (-1 # 2) (1 # 3)); vm_compute; congruence.
Defined.

(** X6: a sample of [1, 2) is stored wrapped around: the stored integer is
    its truncated product less [65536], a negative value. *)
Theorem quantize_overrange_wraps (s : Q) :
  (1 <= s)%Q -> (s < 2)%Q ->
  quantize s = truncate (s * 32768) - 65536 /\ -32768 <= quantize s < 0.
Proof.
  intros Hlo Hhi.
  assert (Ht : 32768 <= truncate (s * 32768) <= 65535).
  { destruct s as [n d]. unfold Qle, Qlt, truncate in *. cbn in *.
    pose proof (Z.quot_rem' (n * 32768) (Z.pos (d * 1))) as E.
    pose proof (Z.rem_bound_pos (n * 32768) (Z.pos (d * 1)) ltac:(lia) ltac:(lia)).
    nia. }
  unfold quantize, int16_store, toInt16. cbv zeta.
  rewrite Z.mod_small by lia.
  destruct (32768 <=? truncate (s * 32768)) eqn:E;
    [apply Z.leb_le in E | apply Z.leb_gt in E]; lia.
Qed.

Lemma quantize_overrange_wraps_witness :
  quantize (3 # 2) = truncate ((3 # 2) * 32768) - 65536 /\
  -32768 <= quantize (3 # 2) < 0.
Proof.
  apply (quantize_overrange_wraps (3 # 2)); vm_compute; congruence.
Defined.

(** X7: storing a played-back sample again gives the integer it came from:
    the quantizer undoes the normalisation of [decodeAudioData] exactly. *)
Theorem quantize_dequantize (v : Z) : is_int16 v -> quantize (dequantize v) = v.
Proof.
  intros Hv. unfold quantize, int16_store.
  assert (Ht : truncate (dequantize v * 32768) = v).
  { unfold truncate, dequantize. cbn.
    replace (v * 1 * 32768) with (v * 32768) by ring.
    apply Z.quot_mul. lia. }
  rewrite Ht. now apply toInt16_small.
Qed.

Lemma quantize_dequantize_witness : quantize (dequantize (-32768)) = -32768.
Proof.
  apply (quantize_dequantize (-32768)). unfold is_int16. lia.
Defined.

End PcmMoreTheorems.
Section Base64More.
Import Base64 Pcm.

Lemma encoded_length l :
  (List.length (sextets l) + padding l = 4 * ((List.length l + 2) / 3))%nat.
Proof.
  induction l as [| x | x y | x y z r IH] using list_ind_by3;
    try reflexivity.
  cbn [sextets padding List.length].
  replace (S (S (S (List.length r))) + 2)%nat
    with (1 * 3 + (List.length r + 2))%nat by lia.
  rewrite Nat.div_add_l by lia. lia.
Qed.

Lemma uint8_view_length l : List.length (uint8_view l) = (2 * List.length l)%nat.
Proof.
  induction l as [|v l IH]; [reflexivity|].
  cbn [uint8_view flat_map bytes_of_int16 app List.length] in *.
  unfold uint8_view in IH. rewrite IH. lia.
Qed.

Lemma strip_padding_unpadded body :
  Forall (fun c => (c =? pad_char) = false) body -> strip_padding body = body.
Proof.
  intros Hbody. unfold strip_padding.
  destruct (_ mod 4 =? 0); [|reflexivity].
  destruct (rev body) as [|c r] eqn:E; [reflexivity|].
  assert (Hc : (c =? pad_char) = false).
  { rewrite Forall_forall in Hbody. apply Hbody. apply in_rev. rewrite E. now left. }
  now rewrite Hc.
Qed.

(** X8: the frame that [createBlob] builds from [n] samples is tagged
    [audio/pcm;rate=16000] and its text has [4 * ceil(2n / 3)] characters:
    two bytes a sample, four characters for every three bytes. *)
Theorem createBlob_size (samples : list Q) :
  exists blob,
    createBlob samples = Some blob /\
    mimeType blob = lit "audio/pcm;rate=16000" /\
    List.length (data blob) = (4 * ((2 * List.length samples + 2) / 3))%nat.
Proof.
  unfold createBlob, encode.
  rewrite map_fromCharCode_bytes by apply uint8_view_bytes.
  destruct (atob_btoa _ (uint8_view_bytes (map quantize samples))) as [text [E _]].
  rewrite E. eexists. split; [reflexivity|]. split; [reflexivity|].
  cbn [data]. unfold btoa in E.
  destruct (forallb _ _); [|discriminate]. injection E as <-.
  rewrite length_app, length_map, repeat_length, encoded_length.
  now rewrite uint8_view_length, length_map.
Qed.

Lemma filter_pad_chars l :
  Forall is_sextet l ->
  filter (fun c => negb (c =? pad_char)) (map char_of_sextet l)
  = map char_of_sextet l.
Proof.
  induction 1 as [|n l Hn _ IH]; cbn [map filter]; [reflexivity|].
  now rewrite char_of_sextet_not_pad, IH.
Qed.

Lemma filter_pad_pads k :
  filter (fun c => negb (c =? pad_char)) (repeat pad_char k) = [].
Proof. induction k; cbn; auto. Qed.

(** X9: [decode] does not need the padding: the text that [encode] gives
    for a byte array, with every ['='] taken out, still decodes to the
    array. *)
Theorem decode_accepts_unpadded (bytes : list Z) :
  Forall is_byte bytes ->
  exists text,
    encode bytes = Some text /\
    decode (filter (fun c => negb (c =? pad_char)) text) = Some bytes.
Proof.
  intros Hb. pose proof (sextets_range bytes Hb) as Hs.
  unfold encode. rewrite map_fromCharCode_bytes by assumption.
  destruct (atob_btoa bytes Hb) as [text [E _]].
  exists text. split; [exact E|].
  unfold btoa in E. destruct (forallb _ _); [|discriminate]. injection E as <-.
  rewrite filter_app, filter_pad_chars, filter_pad_pads, app_nil_r by assumption.
  unfold decode, atob.
  rewrite filter_spaces_chars by assumption.
  rewrite strip_padding_unpadded by auto using chars_not_pad.
  rewrite length_map.
  pose proof (sextets_shape bytes) as Shape. cbn zeta in Shape.
  assert (Hne : (Z.of_nat (List.length (sextets bytes)) mod 4 =? 1) = false).
  { apply Z.eqb_neq. destruct Shape as [[_ ->]|[[_ ->]|[_ ->]]]; lia. }
  rewrite Hne, traverse_sextets_chars by assumption. cbn [option_map].
  now rewrite octets_sextets, map_toUint8_bytes.
Qed.

Lemma decode_accepts_unpadded_witness :
  exists text,
    encode [77; 97] = Some text /\
    decode (filter (fun c => negb (c =? pad_char)) text) = Some [77; 97].
Proof.
  apply (decode_accepts_unpadded [77; 97]).
  repeat constructor; unfold is_byte; lia.
Defined.

End Base64More.
(* ================================================================= *)
(** * Further properties of the service *)

Section ServiceMore.
Import Pcm Live Runs Samples Calls.

Lemma connect_catch_run err s :
  connect_catch err s
  = (Ok tt, new_LiveService,
     [ConsoleError "Failed to connect live session"; Live.OnError err]
       ++ trace_of (cleanup s)).
Proof.
  unfold connect_catch, bind, emit. cbn -[cleanup]. rewrite cleanup_run.
  cbn. now rewrite ?app_nil_r.
Qed.

Lemma onclose_run s :
  onclose s
  = (Ok tt, new_LiveService,
     [ConsoleLog "Live Session Closed"] ++ trace_of (cleanup s) ++ [Live.OnClose]).
Proof.
  unfold onclose, bind, emit. cbn -[cleanup]. rewrite cleanup_run. reflexivity.
Qed.

Lemma onerror_run e s :
  onerror e s
  = (Ok tt, new_LiveService,
     [ConsoleError "Live Session Error";
      Live.OnError match e with Some err => err | None => Error "WebSocket Error" end]
       ++ trace_of (cleanup s)).
Proof.
  unfold onerror, bind, emit. cbn -[cleanup]. rewrite cleanup_run.
  cbn. now rewrite ?app_nil_r.
Qed.

Lemma onopen_run srcNode procNode s :
  onopen srcNode procNode s
  = match inputAudioContext s, stream s with
    | Some _, Some m =>
        (Ok tt, set_processor (Some procNode) (set_sourceNode (Some srcNode) s),
         [ConsoleLog "Live Session Connected"; CaptureStart m procNode])
    | _, _ => (Ok tt, s, [ConsoleLog "Live Session Connected"])
    end.
Proof.
  unfold onopen, startAudioInput, bind, emit, this, assign, ret. cbn.
  destruct (inputAudioContext s), (stream s); reflexivity.
Qed.

Lemma source_ended_run node s :
  source_ended node s = (Ok tt, set_sources (set_delete node (sources s)) s, []).
Proof. reflexivity. Qed.

Lemma consistent_new : consistent new_LiveService.
Proof.
  unfold consistent. cbn. repeat split; try congruence; try constructor.
  discriminate.
Qed.

Lemma stopAudioPlayback_consistent s :
  consistent s -> consistent (state_of (stopAudioPlayback s)).
Proof.
  intros [_ [_ [H3 [H4 _]]]]. rewrite stopAudioPlayback_run.
  unfold consistent. cbn. repeat split; try constructor; try tauto.
  discriminate.
Qed.

Lemma playAudioChunk_consistent base64 now node s :
  consistent s -> consistent (state_of (playAudioChunk base64 now node s)).
Proof.
  intros Hs. pose proof (playAudioChunk_NoDup base64 now node s (proj1 Hs)) as Hnd.
  pose proof (playAudioChunk_monotone base64 now node s) as Hm.
  destruct Hs as [H1 [H2 [H3 [H4 H5]]]].
  destruct (outputAudioContext s) as [ctx|] eqn:H.
  - destruct (chunk_buffer base64) as [b|e] eqn:E.
    + rewrite (playAudioChunk_scheduled _ _ _ _ _ _ H E) in *.
      unfold consistent. cbn in *. rewrite H.
      repeat split; try tauto; try discriminate. lra.
    + rewrite (playAudioChunk_thrown _ _ _ _ _ _ H E) in *.
      unfold consistent. cbn in *. rewrite H.
      repeat split; try tauto; try discriminate. lra.
  - rewrite (playAudioChunk_detached _ _ _ _ H).
    unfold consistent. cbn. repeat split; tauto.
Qed.

Lemma onmessage_consistent message now node s :
  consistent s -> consistent (state_of (onmessage message now node s)).
Proof.
  intros Hs. unfold onmessage, bind.
  destruct (inlineData message) as [[|c r]|].
  - cbn. destruct (interrupted message); cbn.
    + now apply stopAudioPlayback_consistent.
    + exact Hs.
  - pose proof (playAudioChunk_consistent (c :: r) now node s Hs) as Hp.
    destruct (playAudioChunk (c :: r) now node s) as [[[[]|e] s1] t1];
      cbn [state_of fst snd] in Hp; [|exact Hp].
    destruct (interrupted message).
    + pose proof (stopAudioPlayback_consistent s1 Hp) as Hq.
      destruct (stopAudioPlayback s1) as [[r2 s2] t2]. exact Hq.
    + exact Hp.
  - cbn. destruct (interrupted message); cbn.
    + now apply stopAudioPlayback_consistent.
    + exact Hs.
Qed.

Lemma set_delete_In n m l : In m (set_delete n l) <-> In m l /\ m <> n.
Proof.
  unfold set_delete. rewrite filter_In. rewrite negb_true_iff, Nat.eqb_neq.
  split; intros [A B]; split; auto.
Qed.

Lemma source_ended_consistent node s :
  consistent s -> consistent (state_of (source_ended node s)).
Proof.
  intros [H1 [H2 [H3 [H4 H5]]]]. rewrite source_ended_run.
  unfold consistent. cbn. repeat split; try tauto.
  - now apply NoDup_filter.
  - intros Hne. apply H2. intros E. rewrite E in Hne. now apply Hne.
Qed.

Lemma onopen_consistent a b s :
  consistent s -> consistent (state_of (onopen a b s)).
Proof.
  intros [H1 [H2 [H3 [H4 H5]]]]. rewrite onopen_run.
  destruct (inputAudioContext s) as [ic|] eqn:Eic;
    destruct (stream s) as [m|] eqn:Em;
    unfold consistent; cbn; rewrite ?Eic, ?Em;
    repeat split; try tauto; try discriminate.
Qed.

Lemma connect_consistent env s :
  consistent s -> consistent (state_of (connect env s)).
Proof.
  intros [H1 [H2 [H3 [H4 H5]]]].
  destruct (mediaDevices env) eqn:Hm.
  - destruct (getUserMedia env) as [m|] eqn:Hg.
    + rewrite (connect_granted env s m Hm Hg).
      unfold consistent. cbn. repeat split; try tauto; try discriminate.
    + rewrite (connect_denied env s Hm Hg). apply consistent_new.
  - rewrite (connect_unsupported env s Hm). apply consistent_new.
Qed.

Lemma call_consistent c s : consistent s -> consistent (fst (call c s)).
Proof.
  intros Hs. destruct c; cbn [call fst].
  - now apply connect_consistent.
  - destruct outcome as [h|err]; cbn [connect_settled].
    + destruct Hs as [H1 [H2 [H3 [H4 H5]]]].
      unfold consistent. cbn. repeat split; tauto.
    + rewrite connect_catch_run. apply consistent_new.
  - now apply onopen_consistent.
  - now apply onmessage_consistent.
  - now apply source_ended_consistent.
  - rewrite onclose_run. apply consistent_new.
  - rewrite onerror_run. apply consistent_new.
  - rewrite disconnect_run. apply consistent_new.
Qed.

(** X10: whatever the component and the SDK call on a service, in whatever
    order and with whatever data, its fields stay consistent: the set of
    sources holds no source twice and is empty without an output context,
    the capture nodes exist only together and only with an input context and
    a stream, and [nextStartTime] is not negative. *)
Theorem service_stays_consistent (cs : list Call) :
  consistent (fst (calls cs new_LiveService)).
Proof.
  assert (H : forall s, consistent s -> consistent (fst (calls cs s))).
  { induction cs as [|c r IH]; intros s Hs; cbn [calls]; [exact Hs|].
    pose proof (call_consistent c s Hs) as Hc.
    destruct (call c s) as [s1 t1]. cbn [fst] in Hc.
    specialize (IH s1 Hc). destruct (calls r s1) as [s2 t2]. exact IH. }
  apply H, consistent_new.
Qed.

Lemma same_resources_refl s : same_resources s s.
Proof. unfold same_resources. repeat split. Qed.

Lemma same_resources_trans s1 s2 s3 :
  same_resources s1 s2 -> same_resources s2 s3 -> same_resources s1 s3.
Proof.
  unfold same_resources. intros [A1 [A2 [A3 [A4 [A5 A6]]]]] [B1 [B2 [B3 [B4 [B5 B6]]]]].
  repeat split; congruence.
Qed.

Lemma playAudioChunk_same_resources base64 now node s :
  same_resources s (state_of (playAudioChunk base64 now node s)).
Proof.
  destruct (outputAudioContext s) as [ctx|] eqn:H.
  - destruct (chunk_buffer base64) as [b|e] eqn:E.
    + rewrite (playAudioChunk_scheduled _ _ _ _ _ _ H E). repeat split.
    + rewrite (playAudioChunk_thrown _ _ _ _ _ _ H E). repeat split.
  - rewrite (playAudioChunk_detached _ _ _ _ H). repeat split.
Qed.

Lemma stopAudioPlayback_same_resources s :
  same_resources s (state_of (stopAudioPlayback s)).
Proof. rewrite stopAudioPlayback_run. repeat split. Qed.

Lemma onmessage_same_resources message now node s :
  same_resources s (state_of (onmessage message now node s)).
Proof.
  unfold onmessage, bind.
  destruct (inlineData message) as [[|c r]|].
  - cbn. destruct (interrupted message); cbn;
      [apply stopAudioPlayback_same_resources | apply same_resources_refl].
  - pose proof (playAudioChunk_same_resources (c :: r) now node s) as Hp.
    destruct (playAudioChunk (c :: r) now node s) as [[[[]|e] s1] t1];
      cbn [state_of fst snd] in Hp; [|exact Hp].
    destruct (interrupted message).
    + pose proof (stopAudioPlayback_same_resources s1) as Hq.
      destruct (stopAudioPlayback s1) as [[r2 s2] t2]. cbn [state_of fst snd] in *.
      eapply same_resources_trans; eassumption.
    + exact Hp.
  - cbn. destruct (interrupted message); cbn;
      [apply stopAudioPlayback_same_resources | apply same_resources_refl].
Qed.

Lemma playback_calls_same_resources cs : forall s,
  forallb is_playback cs = true -> same_resources s (fst (calls cs s)).
Proof.
  induction cs as [|c r IH]; intros s Hall; cbn [calls].
  - apply same_resources_refl.
  - cbn [forallb] in Hall. apply andb_prop in Hall as [Hc Hr].
    assert (H1 : same_resources s (fst (call c s))).
    { destruct c; try discriminate; cbn [call fst].
      - apply onmessage_same_resources.
      - rewrite source_ended_run. repeat split. }
    destruct (call c s) as [s1 t1]. cbn [fst] in H1.
    specialize (IH s1 Hr). destruct (calls r s1) as [s2 t2]. cbn [fst] in *.
    eapply same_resources_trans; eassumption.
Qed.

(** X11: a call that starts well and is hung up releases exactly what the
    start acquired, however much audio was played in between: after
    [connect] on a browser that grants the microphone, [onopen] and the
    arrival of the session, and then any messages and ended sources,
    [disconnect] closes the session, stops the sources still in the set,
    disconnects the two capture nodes, stops the stream and closes both
    contexts, in this order, and nothing else. *)
Theorem hangup_releases_what_start_acquired
    (env : Env) (m h srcNode procNode : handle) (played : list Call) :
  mediaDevices env = true ->
  getUserMedia env = Some m ->
  forallb is_playback played = true ->
  let s := fst (calls (Connect env :: Opened srcNode procNode :: Settled (inl h) :: played)
                      new_LiveService) in
  disconnect s
  = (Ok tt, new_LiveService,
     SessionClose h :: EnterCleanup :: map SourceStop (sources s)
       ++ [ProcessorDisconnect procNode; SourceNodeDisconnect srcNode;
           StreamStop m; ContextClose (inputCtx env); ContextClose (outputCtx env)]).
Proof.
  intros Hm Hg Hplayed s.
  assert (Hs : same_resources
                 (set_session (Some h)
                    (set_processor (Some procNode)
                       (set_sourceNode (Some srcNode)
                          (set_stream (Some m)
                             (set_outputAudioContext (Some (outputCtx env))
                                (set_inputAudioContext (Some (inputCtx env))
                                   new_LiveService))))))
                 s).
  { unfold s. cbn [calls call]. rewrite (connect_granted env _ m Hm Hg).
    cbn [state_of trace_of fst snd]. rewrite onopen_run. cbn.
    match goal with |- context [calls played ?x] =>
      pose proof (playback_calls_same_resources played x Hplayed) as Hp;
      destruct (calls played x) as [s2 t2] end.
    exact Hp. }
  destruct Hs as [H1 [H2 [H3 [H4 [H5 H6]]]]]. cbn in H1, H2, H3, H4, H5, H6.
  rewrite disconnect_run, cleanup_run. cbn [trace_of snd].
  rewrite H1, H2, H3, H4, H5, H6. cbn [released app].
  reflexivity.
Qed.

Lemma hangup_releases_what_start_acquired_witness :
  let s := fst (calls [Connect granted; Opened 4 5; Settled (inl 7%nat);
                       Received {| inlineData := Some silence_tenth;
                                   interrupted := false |} 5 10]
                      new_LiveService) in
  disconnect s
  = (Ok tt, new_LiveService,
     SessionClose 7 :: EnterCleanup :: map SourceStop (sources s)
       ++ [ProcessorDisconnect 5; SourceNodeDisconnect 4;
           StreamStop 3; ContextClose (inputCtx granted);
           ContextClose (outputCtx granted)]).
Proof.
  exact (hangup_releases_what_start_acquired granted 3%nat 7%nat 4%nat 5%nat
           [Received {| inlineData := Some silence_tenth; interrupted := false |} 5 10]
           eq_refl eq_refl eq_refl).
Defined.

(** X12: when the session promise is rejected after the microphone was
    granted, the error is reported once through [onError], the stream and the
    two contexts that [connect] had opened are released, and the object is
    left as a new one. *)
Theorem rejected_session_releases_microphone (env : Env) (m : handle) (err : Exn) :
  mediaDevices env = true ->
  getUserMedia env = Some m ->
  connect_settled (inr err) (state_of (connect env new_LiveService))
  = (Ok tt, new_LiveService,
     [ConsoleError "Failed to connect live session"; Live.OnError err; EnterCleanup;
      StreamStop m; ContextClose (inputCtx env); ContextClose (outputCtx env)]).
Proof.
  intros Hm Hg. rewrite (connect_granted env _ m Hm Hg).
  cbn [connect_settled state_of fst snd]. rewrite connect_catch_run, cleanup_run.
  reflexivity.
Qed.

Lemma rejected_session_releases_microphone_witness :
  connect_settled (inr (Error "handshake failed"))
    (state_of (connect granted new_LiveService))
  = (Ok tt, new_LiveService,
     [ConsoleError "Failed to connect live session";
      Live.OnError (Error "handshake failed"); EnterCleanup;
      StreamStop 3; ContextClose (inputCtx granted); ContextClose (outputCtx granted)]).
Proof.
  exact (rejected_session_releases_microphone granted 3%nat (Error "handshake failed")
           eq_refl eq_refl).
Defined.

(** X13: once a service has been torn down, late callbacks start nothing.
    A server message starts no source and stops none, and the object stays
    as a new one; the callback throws, a TypeError, exactly when the message
    has a model turn without [parts], and otherwise returns.  An [onopen]
    starts no capture, and an ended source changes nothing. *)
Theorem late_callbacks_are_inert
    (how : Teardown) (s : LiveService) (message : Wire.LiveServerMessage) (now : Q)
    (node srcNode procNode : handle) :
  let torn := state_of (teardown how s) in
  let turn_without_parts :=
    exists content turn,
      Wire.serverContent message = Some content /\
      Wire.modelTurn content = Some turn /\ Wire.parts turn = None in
  let r := Wire.onmessage message now node torn in
  state_of r = new_LiveService /\ trace_of r = [] /\
  (result_of r = Throw TypeError <-> turn_without_parts) /\
  (result_of r = Ok tt <-> ~ turn_without_parts) /\
  onopen srcNode procNode torn
  = (Ok tt, new_LiveService, [ConsoleLog "Live Session Connected"]) /\
  source_ended node torn = (Ok tt, new_LiveService, []).
Proof.
  cbv zeta. rewrite teardown_state.
  assert (Hview : forall view,
            onmessage view now node new_LiveService = (Ok tt, new_LiveService, [])).
  { intros view. unfold onmessage, bind.
    destruct (inlineData view) as [[|c r]|].
    - cbn. destruct (interrupted view); reflexivity.
    - rewrite (playAudioChunk_detached (c :: r) now node new_LiveService eq_refl).
      destruct (interrupted view); reflexivity.
    - cbn. destruct (interrupted view); reflexivity. }
  assert (Hread : (exists view, Wire.read message = Ok view /\
                     ~ (exists content turn,
                          Wire.serverContent message = Some content /\
                          Wire.modelTurn content = Some turn /\
                          Wire.parts turn = None))
                  \/ (Wire.read message = Throw TypeError /\
                      exists content turn,
                        Wire.serverContent message = Some content /\
                        Wire.modelTurn content = Some turn /\
                        Wire.parts turn = None)).
  { unfold Wire.read, Wire.base64Audio.
    destruct (Wire.serverContent message) as [content|] eqn:E1.
    2:{ left. eexists. split; [reflexivity|]. intros (c & t & E & _). discriminate. }
    destruct (Wire.modelTurn content) as [turn|] eqn:E2.
    2:{ left. eexists. split; [reflexivity|].
        intros (c & t & E & E' & _). congruence. }
    destruct (Wire.parts turn) as [[|part rest]|] eqn:E3.
    - left. eexists. split; [reflexivity|].
      intros (c & t & E & E' & E''). congruence.
    - left. destruct (Wire.inlineData part); eexists; (split; [reflexivity|]);
        intros (c & t & E & E' & E''); congruence.
    - right. split; [reflexivity|]. now exists content, turn. }
  unfold Wire.onmessage.
  destruct Hread as [(view & -> & Hno) | (-> & Hyes)].
  - rewrite Hview. cbn. repeat split; try discriminate; tauto.
  - cbn. repeat split; try discriminate; tauto.
Qed.

(** X14: a source that has ended leaves the set, alone: a later
    interruption or teardown does not call [stop] on it, while every other
    source of the set is still stopped; the devices and [nextStartTime] are
    untouched. *)
Theorem ended_source_is_forgotten (node : handle) (s : LiveService) :
  let s1 := state_of (source_ended node s) in
  ~ In node (sources s1) /\
  (forall other, other <> node -> (In other (sources s1) <-> In other (sources s))) /\
  ~ In (SourceStop node) (trace_of (stopAudioPlayback s1)) /\
  (forall other, other <> node -> In other (sources s) ->
     In (SourceStop other) (trace_of (stopAudioPlayback s1))) /\
  same_resources s s1 /\
  nextStartTime s1 = nextStartTime s.
Proof.
  cbv zeta. rewrite source_ended_run. cbn [state_of fst snd].
  rewrite stopAudioPlayback_run. cbn.
  split; [intros H; apply set_delete_In in H; tauto|].
  split; [intros other Hne; rewrite set_delete_In; tauto|].
  split.
  - intros H. apply in_map_iff in H as [x [Ex Hx]]. injection Ex as ->.
    apply set_delete_In in Hx. tauto.
  - split; [|split; [repeat split | reflexivity]].
    intros other Hne Hin. apply in_map. apply set_delete_In. tauto.
Qed.

(** X15: a message that carries both a playable chunk and the interruption
    flag leaves nothing playing: the chunk is started at
    [max(nextStartTime, now)] and then stopped with every other source, the
    set is empty and [nextStartTime] is back to [0]. *)
Theorem chunk_with_interruption_is_cancelled
    (s : LiveService) (ctx : handle) (message : Message) (c : Z) (rest : jsstring)
    (b : AudioBuffer) (now : Q) (node : handle) :
  outputAudioContext s = Some ctx ->
  inlineData message = Some (c :: rest) ->
  chunk_buffer (c :: rest) = inl b ->
  interrupted message = true ->
  let r := onmessage message now node s in
  result_of r = Ok tt /\
  trace_of r
  = SourceStart node (Qmax (nextStartTime s) now)
      :: map SourceStop (set_add node (sources s)) /\
  In (SourceStop node) (trace_of r) /\
  sources (state_of r) = [] /\
  nextStartTime (state_of r) = 0%Q.
Proof.
  intros Hctx Hdata Hb Hint r. unfold r, onmessage, bind.
  rewrite Hdata, Hint, (playAudioChunk_scheduled _ _ _ _ _ _ Hctx Hb).
  rewrite stopAudioPlayback_run. cbn.
  repeat split. right. apply in_map. unfold set_add.
  destruct (existsb (Nat.eqb node) (sources s)) eqn:E.
  - apply existsb_exists in E as [x [Hx Ex]]. apply Nat.eqb_eq in Ex. now subst.
  - apply in_or_app. right. now left.
Qed.

Lemma chunk_with_interruption_is_cancelled_witness :
  let r := onmessage {| inlineData := Some (lit "AAAAAAAA"); interrupted := true |}
             6 11 playing in
  result_of r = Ok tt /\
  trace_of r
  = SourceStart 11 (Qmax (nextStartTime playing) 6)
      :: map SourceStop (set_add 11 (sources playing)) /\
  In (SourceStop 11) (trace_of r) /\
  sources (state_of r) = [] /\
  nextStartTime (state_of r) = 0%Q.
Proof.
  exact (chunk_with_interruption_is_cancelled playing 2%nat
           {| inlineData := Some (lit "AAAAAAAA"); interrupted := true |}
           65 (lit "AAAAAAA")
           {| sampleRate := 24000; frames := 3;
              channels := [[dequantize 0; dequantize 0; dequantize 0]] |}
           6 11%nat eq_refl eq_refl eq_refl eq_refl).
Defined.

End ServiceMore.
Section CaptureMore.
Import Pcm Live Runs Calls.

Lemma Forall2_createBlob_app b1 b2 l1 l2 :
  Forall2 (fun b blob => createBlob b = Some blob) b1 l1 ->
  Forall2 (fun b blob => createBlob b = Some blob) b2 l2 ->
  Forall2 (fun b blob => createBlob b = Some blob) (b1 ++ b2) (l1 ++ l2).
Proof. intros H1 H2. now apply Forall2_app. Qed.

(** X16: every captured buffer is sent exactly once and in capture order,
    wherever the arrival of the session falls: the frames captured before it
    are sent when it arrives, those captured after it at once, and the frames
    sent are those of [createBlob] on the buffers, in order. *)
Theorem frames_sent_once_in_capture_order
    (before after : list (list Q)) (h : handle) :
  exists blobs,
    Forall2 (fun b blob => createBlob b = Some blob) (before ++ after) blobs /\
    let '(p1, t1) := capture before (Pending []) in
    let '(p2, t2) := fulfil h p1 in
    let '(p3, t3) := capture after p2 in
    t1 = [] /\ p3 = Fulfilled h /\
    t1 ++ t2 ++ t3 = map (SendRealtimeInput h) blobs.
Proof.
  destruct (capture_pending before []) as [blobs1 [F1 C1]].
  destruct (capture_fulfilled h after) as [blobs2 [F2 C2]].
  exists (blobs1 ++ blobs2). split; [now apply Forall2_createBlob_app|].
  rewrite C1. cbn [app fulfil]. rewrite C2.
  repeat split. now rewrite map_app.
Qed.

End CaptureMore.

(* ================================================================= *)
(** * Further properties of the voice handlers *)

Section AppMore.
Import Live Runs Samples App.

Lemma USERS_bot contact u :
  USERS contact = Some u -> isBot u = true -> contact = "gemini"%string.
Proof.
  unfold USERS. destruct (String.eqb contact "gemini") eqn:E.
  - intros _ _. now apply String.eqb_eq.
  - destruct (String.eqb contact "sarah"); [intros H; injection H as <-; discriminate|].
    destruct (String.eqb contact "design"); [intros H; injection H as <-; discriminate|].
    discriminate.
Qed.

(** X17: a voice call is only ever started from the chat with the contact
    [gemini]: in every other case (no chat open, the open chat not in the
    list, an unknown contact, a contact that is not the bot)
    [handleVoiceStart] leaves the component as it is and creates no service;
    the only thing it may do is show the alert. *)
Theorem voice_only_with_gemini (env : Env) (outcome : handle + Exn) (a : App) :
  let r := handleVoiceStart env outcome a in
  (exists sid chat,
     activeSessionId a = Some sid /\
     find (fun c => String.eqb (id c) sid) (sessions a) = Some chat /\
     contactId chat = "gemini"%string) \/
  (fst r = a /\
   (snd r = [] \/
    snd r = [Alert "Voice chat is currently only available with Gemini AI."])).
Proof.
  cbv zeta. unfold handleVoiceStart.
  destruct (activeSessionId a) as [sid|]; [|right; split; auto].
  destruct (String.eqb sid EmptyString); [right; split; auto|].
  destruct (find _ (sessions a)) as [chat|] eqn:Ef; [|right; split; auto].
  destruct (USERS (contactId chat)) as [u|] eqn:Eu; [|right; split; auto].
  destruct (isBot u) eqn:Eb; cbn [negb].
  - left. exists sid, chat. split; [reflexivity|]. split; [exact Ef|].
    exact (USERS_bot _ _ Eu Eb).
  - right. split; auto.
Qed.

Lemma start_service_failed env outcome :
  mediaDevices env = false \/ getUserMedia env = None ->
  start_service env outcome
  = (new_LiveService,
     if mediaDevices env
     then [ConsoleError "getUserMedia error:";
           ConsoleError "Failed to connect live session";
           OnError (Error
             "Could not access microphone. Please check permissions and ensure a microphone is connected.");
           EnterCleanup; ContextClose (inputCtx env); ContextClose (outputCtx env)]
     else [ConsoleError "Failed to connect live session";
           OnError (Error
             "Microphone access is not supported in this environment (HTTP or no hardware).");
           EnterCleanup]).
Proof.
  intros Hfail. unfold start_service.
  destruct (mediaDevices env) eqn:Hm.
  - destruct Hfail as [Hfail|Hg]; [discriminate|].
    rewrite (connect_denied env _ Hm Hg), cleanup_run. reflexivity.
  - rewrite (connect_unsupported env _ Hm), cleanup_run. reflexivity.
Qed.

(** X18: when the start fails for lack of a capture interface or of the
    microphone, [handleVoiceStart] records the message of the error, arms the
    timer that closes the overlay and keeps a service that holds nothing; the
    status it leaves is [error] only if the status was already [error] when
    the handler was created: otherwise the test after the [await], made on
    that earlier value, puts [connected] over the [error] just set.  (An
    open chat whose id is the empty string counts as no chat: the handler
    returns at once.) *)
Theorem failed_start_status
    (env : Env) (outcome : handle + Exn) (a : App) (sid : string) (chat : ChatSession) :
  activeSessionId a = Some sid ->
  find (fun c => String.eqb (id c) sid) (sessions a) = Some chat ->
  USERS (contactId chat) = Some {| isBot := true |} ->
  mediaDevices env = false \/ getUserMedia env = None ->
  let r := handleVoiceStart env outcome a in
  if String.eqb sid EmptyString then r = (a, [])
  else
    isVoiceActive (fst r) = true /\
    voiceStatus (fst r)
    = (if VoiceStatus_eqb (voiceStatus a) error then error else connected) /\
    voiceErrorMsg (fst r)
    = (if mediaDevices env
       then "Could not access microphone. Please check permissions and ensure a microphone is connected."
       else "Microphone access is not supported in this environment (HTTP or no hardware).")%string /\
    In (SetTimeout 3500) (snd r) /\
    services (fst r) = services a ++ [new_LiveService] /\
    liveServiceRef (fst r) = Some (List.length (services a)).
Proof.
  intros Hsid Hfind Huser Hfail r. unfold r, handleVoiceStart.
  rewrite Hsid. destruct (String.eqb sid EmptyString); [reflexivity|].
  rewrite Hfind, Huser. cbn [isBot negb].
  rewrite (start_service_failed env outcome Hfail).
  destruct (mediaDevices env); cbn;
    destruct (VoiceStatus_eqb (voiceStatus a) error); cbn;
    repeat split; auto 10.
Qed.

Lemma failed_start_status_witness :
  let r := handleVoiceStart denied (inl 7%nat) idle in
  isVoiceActive (fst r) = true /\
  voiceStatus (fst r) = connected /\
  voiceErrorMsg (fst r)
  = "Could not access microphone. Please check permissions and ensure a microphone is connected."%string /\
  In (SetTimeout 3500) (snd r) /\
  services (fst r) = services idle ++ [new_LiveService] /\
  liveServiceRef (fst r) = Some (List.length (services idle)).
Proof.
  exact (failed_start_status denied (inl 7%nat) idle "s1"
           {| id := "s1"; contactId := "gemini" |}
           eq_refl eq_refl eq_refl (or_intror eq_refl)).
Defined.

Lemma nth_error_snoc {A} (l : list A) (x : A) :
  nth_error (l ++ [x]) (List.length l) = Some x.
Proof. rewrite nth_error_app2 by lia. now rewrite Nat.sub_diag. Qed.

Lemma firstn_snoc {A} (l : list A) (x : A) : firstn (List.length l) (l ++ [x]) = l.
Proof. rewrite firstn_app, Nat.sub_diag, firstn_all. cbn. apply app_nil_r. Qed.

Lemma skipn_snoc {A} (l : list A) (x : A) : skipn (S (List.length l)) (l ++ [x]) = [].
Proof. apply skipn_all2. rewrite length_app. cbn. lia. Qed.

(** X19: a call started on a browser that grants the microphone and then
    hung up gives back all it took: [handleVoiceHangup] closes the session,
    disconnects the two capture nodes that [onopen] created, stops the
    stream and closes both contexts of the service just created, in this
    order, clears the ref and hides the overlay; the services created before
    are untouched. *)
Theorem start_then_hangup_releases
    (env : Env) (m h : handle) (a : App) (sid : string) (chat : ChatSession) :
  activeSessionId a = Some sid ->
  String.eqb sid EmptyString = false ->
  find (fun c => String.eqb (id c) sid) (sessions a) = Some chat ->
  USERS (contactId chat) = Some {| isBot := true |} ->
  mediaDevices env = true ->
  getUserMedia env = Some m ->
  let calling := fst (handleVoiceStart env (inl h) a) in
  let r := handleVoiceHangup calling in
  snd r = map Service [SessionClose h; EnterCleanup;
                       ProcessorDisconnect (scriptProcessor env);
                       SourceNodeDisconnect (mediaStreamSource env);
                       StreamStop m;
                       ContextClose (inputCtx env); ContextClose (outputCtx env)] /\
  services (fst r) = services a ++ [new_LiveService] /\
  liveServiceRef (fst r) = None /\
  isVoiceActive (fst r) = false.
Proof.
  intros Hsid Hne Hfind Huser Hm Hg calling r. unfold r, calling, handleVoiceStart.
  rewrite Hsid, Hne, Hfind, Huser. cbn [isBot negb].
  rewrite (start_service_opened env m h Hm Hg). cbn [deliver fst snd].
  destruct (VoiceStatus_eqb (voiceStatus a) error);
    unfold handleVoiceHangup, set_voiceStatus, started;
    cbn [liveServiceRef services fst snd];
    rewrite nth_error_snoc, firstn_snoc, skipn_snoc, disconnect_run, cleanup_run;
    cbn; repeat split.
Qed.

Lemma start_then_hangup_releases_witness :
  let calling := fst (handleVoiceStart granted (inl 8%nat) busy) in
  let r := handleVoiceHangup calling in
  snd r = map Service [SessionClose 8; EnterCleanup;
                       ProcessorDisconnect 5; SourceNodeDisconnect 4; StreamStop 3;
                       ContextClose (inputCtx granted); ContextClose (outputCtx granted)] /\
  services (fst r) = services busy ++ [new_LiveService] /\
  liveServiceRef (fst r) = None /\
  isVoiceActive (fst r) = false.
Proof.
  exact (start_then_hangup_releases granted 3%nat 8%nat busy "s1"
           {| id := "s1"; contactId := "gemini" |}
           eq_refl eq_refl eq_refl eq_refl eq_refl eq_refl).
Defined.

(** X20: [handleVoiceHangup] tears down the service of the ref and no
    other: every other service keeps its fields, so a service that a second
    start has pushed out of the ref keeps its session and its microphone; the
    ref is cleared and the overlay hidden, and a second hang-up does
    nothing. *)
Theorem hangup_only_the_referenced_service (a : App) :
  let r := handleVoiceHangup a in
  liveServiceRef (fst r) = None /\
  isVoiceActive (fst r) = false /\
  List.length (services (fst r)) = List.length (services a) /\
  (forall j, liveServiceRef a <> Some j ->
     nth_error (services (fst r)) j = nth_error (services a) j) /\
  (forall i service, liveServiceRef a = Some i ->
     nth_error (services a) i = Some service ->
     nth_error (services (fst r)) i = Some new_LiveService /\
     snd r = map Service (trace_of (disconnect service))) /\
  handleVoiceHangup (fst r) = (fst r, []).
Proof.
  cbv zeta. unfold handleVoiceHangup.
  destruct (liveServiceRef a) as [i|] eqn:Eref.
  - destruct (nth_error (services a) i) as [service|] eqn:En.
    + rewrite disconnect_run. cbn [fst snd liveServiceRef services isVoiceActive].
      assert (Hi : (i < List.length (services a))%nat)
        by (apply nth_error_Some; congruence).
      assert (Hfirst : List.length (firstn i (services a)) = i)
        by (rewrite length_firstn; lia).
      repeat split.
      * rewrite length_app, Hfirst. cbn [List.length]. rewrite length_skipn. lia.
      * intros j Hj. assert (Hne : j <> i) by congruence.
        destruct (Nat.lt_ge_cases j i) as [Hlt|Hge].
        -- rewrite nth_error_app1 by lia. now rewrite nth_error_firstn, (proj2 (Nat.ltb_lt j i) Hlt).
        -- rewrite nth_error_app2 by lia. rewrite Hfirst.
           destruct (j - i)%nat as [|k] eqn:Ek; [lia|]. cbn [nth_error].
           rewrite nth_error_skipn. f_equal. lia.
      * injection H as <-. rewrite nth_error_app2 by lia.
        now rewrite Hfirst, Nat.sub_diag.
      * injection H as <-. rewrite En in H0. injection H0 as <-.
        now rewrite disconnect_run.
    + cbn [fst snd liveServiceRef services isVoiceActive].
      repeat split; try congruence.
  - cbn [fst snd liveServiceRef services isVoiceActive].
    repeat split; try congruence.
Qed.

End AppMore.
(* ================================================================= *)
(** * Properties of the text chat *)

Section GeminiFacts.
Import Gemini.

Lemma last_cons_default {A} (x d : A) (l : list A) : last (x :: l) d = last l x.
Proof.
  revert x d. induction l as [|y l IH]; intros x d; [reflexivity|].
  change (last (x :: y :: l) d) with (last (y :: l) d).
  now rewrite (IH y d), (IH y x).
Qed.

(** The loop over a stream that does not fail, from any text already
    gathered. *)
Lemma read_stream_chunks texts : forall acc,
  exists calls,
    read_stream (map Chunk texts) acc
    = (Some (acc ++ concat (map chunk_text texts)), map OnChunk calls) /\
    List.length calls = List.length (filter nonempty_text texts) /\
    Forall (fun full =>
              (List.length acc < List.length full)%nat /\
              exists rest, full ++ rest = acc ++ concat (map chunk_text texts))
           calls /\
    StronglySorted (fun a b => (List.length a < List.length b)%nat) calls /\
    last calls acc = acc ++ concat (map chunk_text texts).
Proof.
  induction texts as [|text texts IH]; intros acc.
  - exists []. cbn. rewrite app_nil_r. repeat split; constructor.
  - destruct text as [[|c t]|].
    + destruct (IH acc) as [calls H]. exists calls. exact H.
    + destruct (IH (acc ++ c :: t)) as [calls [E [Hl [Hf [Hs Hlast]]]]].
      exists ((acc ++ c :: t) :: calls).
      cbn [map read_stream]. rewrite E.
      cbn [concat chunk_text map filter nonempty_text List.length].
      rewrite <- app_assoc in *. cbn [app] in *.
      assert (Hlen : (List.length acc < List.length (acc ++ c :: t))%nat)
        by (rewrite length_app; cbn; lia).
      repeat split.
      * now rewrite Hl.
      * constructor.
        -- split; [exact Hlen|]. exists (concat (map chunk_text texts)).
           now rewrite <- app_assoc.
        -- eapply Forall_impl; [|exact Hf]. cbn beta.
           intros full [Hfull Hrest]. split; [lia | exact Hrest].
      * constructor; [exact Hs|].
        eapply Forall_impl; [|exact Hf]. cbn beta. intros full [Hfull _]. exact Hfull.
      * rewrite last_cons_default. exact Hlast.
    + destruct (IH acc) as [calls H]. exists calls. exact H.
Qed.

Lemma read_stream_broken texts rest : forall acc,
  read_stream (map Chunk texts ++ Broken :: rest) acc
  = (None, snd (read_stream (map Chunk texts) acc)).
Proof.
  induction texts as [|text texts IH]; intros acc; [reflexivity|].
  destruct text as [[|c t]|]; cbn [map app read_stream]; try apply IH.
  rewrite IH. destruct (read_stream (map Chunk texts) (acc ++ c :: t)). reflexivity.
Qed.

(** X21: the reply returned by [createChatStream] is the concatenation of
    the texts of the chunks, in order; [onChunk] is called once for every
    chunk with a text, each time with all the text so far, so every call gets
    a longer prefix of the reply than the one before and the last call gets
    the whole reply; chunks without text cause no call. *)
Theorem reply_text_accumulates
    (newMessage : jsstring) (attachment : option Attachment)
    (texts : list (option jsstring)) :
  exists calls,
    createChatStream newMessage attachment (map Chunk texts)
    = (Some (concat (map chunk_text texts)),
       SendMessageStream (messageContent newMessage attachment) :: map OnChunk calls) /\
    List.length calls = List.length (filter nonempty_text texts) /\
    Forall (fun full =>
              full <> [] /\ exists rest, full ++ rest = concat (map chunk_text texts))
           calls /\
    StronglySorted (fun a b => (List.length a < List.length b)%nat) calls /\
    last calls [] = concat (map chunk_text texts).
Proof.
  destruct (read_stream_chunks texts []) as [calls [E [Hl [Hf [Hs Hlast]]]]].
  exists calls. unfold createChatStream. rewrite E. cbn [app] in *.
  rewrite app_nil_r. repeat split; try assumption.
  eapply Forall_impl; [|exact Hf]. cbn beta. intros full [Hlen Hrest].
  split; [|exact Hrest]. intros ->. cbn in Hlen. lia.
Qed.

(** X22: when the stream fails, [createChatStream] logs the error and
    throws it again; the calls of [onChunk] made for the chunks before the
    failure are those of a stream that ends there, and nothing that comes
    after the failure is read. *)
Theorem broken_stream_is_rethrown
    (newMessage : jsstring) (attachment : option Attachment)
    (texts : list (option jsstring)) (rest : list StreamItem) :
  createChatStream newMessage attachment (map Chunk texts ++ Broken :: rest)
  = (None,
     snd (createChatStream newMessage attachment (map Chunk texts))
       ++ [ConsoleError "Gemini API Error:"]).
Proof.
  unfold createChatStream. rewrite read_stream_broken.
  destruct (read_stream_chunks texts []) as [calls [E _]]. rewrite E.
  cbn [fst snd app]. now rewrite app_nil_r.
Qed.

Lemma startsWith_base64_comma s :
  startsWith (lit "base64,") s = true -> nth 6 s 0 = 44.
Proof.
  destruct s as [|c0 [|c1 [|c2 [|c3 [|c4 [|c5 [|c6 s]]]]]]]; cbn;
    rewrite ?andb_false_r; try discriminate.
  intros H. repeat (apply andb_prop in H as [? H]).
  symmetry. now apply Z.eqb_eq.
Qed.

Lemma no_comma_no_separator s : ~ In 44 s -> startsWith (lit "base64,") s = false.
Proof.
  intros Hs. destruct (startsWith (lit "base64,") s) eqn:E; [|reflexivity].
  apply startsWith_base64_comma in E. exfalso. apply Hs.
  destruct (nth_in_or_default 6 s 0) as [Hin|Hd]; [now rewrite E in Hin|].
  rewrite E in Hd. discriminate.
Qed.

Lemma no_separator_across header payload :
  header <> [] -> ~ In 44 header ->
  startsWith (lit "base64,") (header ++ lit "base64," ++ payload) = false.
Proof.
  intros Hne Hh.
  destruct (startsWith _ _) eqn:E; [|reflexivity].
  apply startsWith_base64_comma in E. exfalso.
  destruct (Nat.lt_ge_cases 6 (List.length header)) as [Hlt|Hge].
  - rewrite app_nth1 in E by exact Hlt. apply Hh. rewrite <- E. now apply nth_In.
  - rewrite app_nth2 in E by exact Hge.
    assert (Hlen : (0 < List.length header)%nat)
      by (destruct header; [contradiction | cbn; lia]).
    destruct (6 - List.length header)%nat as [|[|[|[|[|[|k]]]]]] eqn:Ek;
      try (cbn in E; discriminate). lia.
Qed.

Lemma split_from_header header : forall piece payload,
  ~ In 44 header ->
  split_from (lit "base64,") 0 piece (header ++ lit "base64," ++ payload)
  = split_from (lit "base64,") 0 (rev header ++ piece) (lit "base64," ++ payload).
Proof.
  induction header as [|c h IH]; intros piece payload Hh; [reflexivity|].
  change ((c :: h) ++ lit "base64," ++ payload)
    with (c :: (h ++ lit "base64," ++ payload)).
  cbn [split_from].
  change (c :: (h ++ lit "base64," ++ payload))
    with ((c :: h) ++ lit "base64," ++ payload).
  rewrite no_separator_across by (try discriminate; assumption).
  rewrite IH by (intros H; apply Hh; now right).
  cbn [rev]. now rewrite <- app_assoc.
Qed.

Lemma split_from_payload payload : forall piece,
  ~ In 44 payload ->
  split_from (lit "base64,") 0 piece payload = [rev piece ++ payload].
Proof.
  induction payload as [|c p IH]; intros piece Hp.
  - cbn. now rewrite app_nil_r.
  - cbn [split_from]. rewrite (no_comma_no_separator (c :: p) Hp).
    rewrite IH by (intros H; apply Hp; now right).
    cbn [rev]. now rewrite <- app_assoc.
Qed.

Lemma includes_separator header payload :
  includes (lit "base64,") (header ++ lit "base64," ++ payload) = true.
Proof.
  induction header as [|c h IH].
  - reflexivity.
  - change ((c :: h) ++ lit "base64," ++ payload)
      with (c :: (h ++ lit "base64," ++ payload)).
    cbn [includes]. rewrite IH. apply orb_true_r.
Qed.

Lemma includes_no_comma s : ~ In 44 s -> includes (lit "base64,") s = false.
Proof.
  induction s as [|c r IH]; intros Hs; [reflexivity|].
  cbn [includes]. rewrite (no_comma_no_separator (c :: r) Hs).
  apply IH. intros H. apply Hs. now right.
Qed.

(** X23: for an image attachment, a data URL and its bare payload give the
    same message: when neither the header nor the payload holds a comma,
    everything up to and including [base64,] is taken off and the payload
    alone is sent as inline data, beside the text of the message or, when that
    is empty, the request to analyze the image. *)
Theorem image_payload_is_stripped
    (newMessage mime header payload : jsstring) :
  startsWith (lit "image/") mime = true ->
  ~ In 44 header ->
  ~ In 44 payload ->
  let sent := Some (Parts [TextPart match newMessage with
                                    | [] => lit "Analyze this image"
                                    | _ => newMessage
                                    end;
                           InlineData mime payload]) in
  messageContent newMessage
    (Some {| mimeType := mime; data := header ++ lit "base64," ++ payload |}) = sent /\
  messageContent newMessage (Some {| mimeType := mime; data := payload |}) = sent.
Proof.
  intros Hmime Hh Hp sent. unfold messageContent, base64Data. cbn [mimeType data].
  rewrite Hmime, includes_separator, (includes_no_comma payload Hp).
  unfold split. rewrite split_from_header by assumption.
  rewrite app_nil_r.
  change (split_from (lit "base64,") 0 (rev header) (lit "base64," ++ payload))
    with (rev (rev header) :: split_from (lit "base64,") 0 [] payload).
  rewrite (split_from_payload payload [] Hp). cbn [nth_error rev app].
  split; reflexivity.
Qed.

Lemma image_payload_is_stripped_witness :
  messageContent []
    (Some {| mimeType := lit "image/png";
             data := lit "data:image/png;" ++ lit "base64," ++ lit "QUJD" |})
  = Some (Parts [TextPart (lit "Analyze this image");
                 InlineData (lit "image/png") (lit "QUJD")]) /\
  messageContent [] (Some {| mimeType := lit "image/png"; data := lit "QUJD" |})
  = Some (Parts [TextPart (lit "Analyze this image");
                 InlineData (lit "image/png") (lit "QUJD")]).
Proof.
  apply (image_payload_is_stripped [] (lit "image/png") (lit "data:image/png;")
           (lit "QUJD")).
  - reflexivity.
  - vm_compute. intuition discriminate.
  - vm_compute. intuition discriminate.
Defined.

End GeminiFacts.
(* ================================================================= *)
(** * Properties of the list of chats *)

Section ChatsFacts.
Import Chats.

Lemma insert_session_perm x l : Permutation (x :: l) (insert_session x l).
Proof.
  induction l as [|y r IH]; cbn [insert_session]; [reflexivity|].
  destruct (lastMessageTimestamp y <=? lastMessageTimestamp x); [reflexivity|].
  rewrite perm_swap. now apply perm_skip.
Qed.

Lemma sort_sessions_perm l : Permutation l (sort_sessions l).
Proof.
  induction l as [|x l IH]; cbn [sort_sessions fold_right]; [reflexivity|].
  rewrite <- insert_session_perm. now apply perm_skip.
Qed.

Lemma insert_session_sorted x l :
  StronglySorted newest_first l -> StronglySorted newest_first (insert_session x l).
Proof.
  induction 1 as [|y r Hr IH Hy]; cbn [insert_session].
  - repeat constructor.
  - destruct (lastMessageTimestamp y <=? lastMessageTimestamp x) eqn:E.
    + apply Z.leb_le in E. constructor; [now constructor|].
      constructor; [exact E|].
      eapply Forall_impl; [|exact Hy]. unfold newest_first. intros z Hz. lia.
    + apply Z.leb_gt in E. constructor; [exact IH|].
      apply (Permutation_Forall (insert_session_perm x r)).
      constructor; [unfold newest_first; lia | exact Hy].
Qed.

Lemma sort_sessions_sorted l : StronglySorted newest_first (sort_sessions l).
Proof.
  induction l as [|x l IH]; cbn [sort_sessions fold_right]; [constructor|].
  now apply insert_session_sorted.
Qed.

Lemma findIndex_Some {A} (p : A -> bool) l i :
  findIndex p l = Some i ->
  exists x, nth_error l i = Some x /\ p x = true /\
            Forall (fun y => p y = false) (firstn i l).
Proof.
  revert i. induction l as [|y r IH]; intros i; cbn [findIndex]; [discriminate|].
  destruct (p y) eqn:E.
  - intros H. injection H as <-. exists y. repeat split; [assumption | constructor].
  - destruct (findIndex p r) as [j|]; [|discriminate].
    intros H. injection H as <-. destruct (IH j eq_refl) as [x [Hx [Hp Hf]]].
    exists x. cbn [nth_error firstn]. repeat split; try assumption.
    now constructor.
Qed.

Lemma findIndex_None {A} (p : A -> bool) l :
  findIndex p l = None -> Forall (fun y => p y = false) l.
Proof.
  induction l as [|y r IH]; cbn [findIndex]; [constructor|].
  destruct (p y) eqn:E; [discriminate|].
  destruct (findIndex p r); [discriminate|]. intros _. constructor; auto.
Qed.

(** X24: [handleSelectChat] opens the chat and marks it read and nothing
    else: the chats keep their number, order, identifiers, contacts, messages
    and timestamps; the unread count becomes [0] for the chats with the
    identifier selected and is unchanged for the others; selecting the same
    chat again changes nothing. *)
Theorem select_chat_marks_read (sessionId : string) (st : Chats) :
  let st' := handleSelectChat sessionId st in
  activeSessionId st' = Some sessionId /\
  map id (sessions st') = map id (sessions st) /\
  map contactId (sessions st') = map contactId (sessions st) /\
  map messages (sessions st') = map messages (sessions st) /\
  map lastMessageTimestamp (sessions st') = map lastMessageTimestamp (sessions st) /\
  map unreadCount (sessions st')
  = map (fun s => if String.eqb (id s) sessionId then 0 else unreadCount s)
        (sessions st) /\
  handleSelectChat sessionId st' = st'.
Proof.
  cbv zeta. unfold handleSelectChat. cbn [activeSessionId sessions].
  rewrite !map_map.
  repeat split;
    try (apply map_ext; intros s; destruct (String.eqb (id s) sessionId); reflexivity).
  f_equal. apply map_ext. intros s.
  destruct (String.eqb (id s) sessionId) eqn:E; cbn [id]; rewrite E; reflexivity.
Qed.

(** X25: after [handleSendMessage] with a chat open, the chats are the
    chats of before, with the message of the user added at the end of the open
    one and its timestamp taken as the timestamp of that chat, in order of
    timestamp, newest first; no chat is lost or added.  With no chat open
    (no id, or the empty string, which is falsy too), or a chat that is
    not in the list, nothing changes. *)
Theorem send_message_sorts_chats
    (currentUser text : string) (att : option Attachment)
    (now_id now_timestamp : Z) (st : Chats) :
  let st' := handleSendMessage currentUser text att now_id now_timestamp st in
  let msg := newUserMsg currentUser text att now_id now_timestamp in
  activeSessionId st' = activeSessionId st /\
  match activeSessionId st with
  | None => st' = st
  | Some sid =>
      if String.eqb sid EmptyString then st' = st
      else
      match findIndex (fun s => String.eqb (id s) sid) (sessions st) with
      | None => st' = st
      | Some i =>
          exists open_chat,
            nth_error (sessions st) i = Some open_chat /\
            id open_chat = sid /\
            Permutation
              (firstn i (sessions st) ++ with_message msg open_chat
                 :: skipn (S i) (sessions st))
              (sessions st') /\
            StronglySorted newest_first (sessions st') /\
            List.length (sessions st') = List.length (sessions st)
      end
  end.
Proof.
  cbv zeta. unfold handleSendMessage.
  destruct (activeSessionId st) as [sid|] eqn:Ea; [|split; [cbn; congruence | reflexivity]].
  destruct (String.eqb sid EmptyString); [split; [cbn; congruence | reflexivity]|].
  destruct (findIndex _ (sessions st)) as [i|] eqn:Ef; [|split; [cbn; congruence | reflexivity]].
  destruct (findIndex_Some _ _ _ Ef) as [open_chat [Hn [Hp _]]].
  rewrite Hn. cbn [activeSessionId sessions]. split; [congruence|].
  exists open_chat. split; [reflexivity|].
  split; [now apply String.eqb_eq|].
  split; [apply sort_sessions_perm|].
  split; [apply sort_sessions_sorted|].
  rewrite <- (Permutation_length (sort_sessions_perm _)).
  rewrite <- (firstn_skipn i (sessions st)) at 3.
  rewrite !length_app. cbn [List.length]. f_equal.
  assert (Hi : (i < List.length (sessions st))%nat)
    by (apply nth_error_Some; congruence).
  rewrite !length_skipn. lia.
Qed.

Lemma In_firstn_nth {A} (x : A) l i :
  In x (firstn i l) -> exists j, (j < i)%nat /\ nth_error l j = Some x.
Proof.
  intros H. apply In_nth_error in H as [j Hj].
  assert (Hlt : (j < List.length (firstn i l))%nat)
    by (apply nth_error_Some; congruence).
  rewrite length_firstn in Hlt.
  exists j. split; [lia|].
  rewrite nth_error_firstn in Hj.
  destruct (j <? i)%nat eqn:E; [assumption|].
  apply Nat.ltb_ge in E. lia.
Qed.

Lemma In_skipn_nth {A} (x : A) l i :
  In x (skipn i l) -> exists j, (i <= j)%nat /\ nth_error l j = Some x.
Proof.
  intros H. apply In_nth_error in H as [j Hj].
  rewrite nth_error_skipn in Hj. exists (i + j)%nat. split; [lia | assumption].
Qed.

(** X26: when the message sent is newer than every other chat, the open
    chat comes first in the list after [handleSendMessage], with the message
    of the user last in it.  (An id that is the empty string counts as no
    chat open: then nothing changes.) *)
Theorem sent_chat_moves_to_front
    (currentUser text : string) (att : option Attachment)
    (now_id now_timestamp : Z) (st : Chats) (sid : string) (i : nat)
    (open_chat : ChatSession) :
  activeSessionId st = Some sid ->
  findIndex (fun s => String.eqb (id s) sid) (sessions st) = Some i ->
  nth_error (sessions st) i = Some open_chat ->
  (forall j other, j <> i -> nth_error (sessions st) j = Some other ->
     lastMessageTimestamp other < now_timestamp) ->
  let st' := handleSendMessage currentUser text att now_id now_timestamp st in
  let msg := newUserMsg currentUser text att now_id now_timestamp in
  if String.eqb sid EmptyString then st' = st
  else
    hd_error (sessions st') = Some (with_message msg open_chat) /\
    messages (with_message msg open_chat) = messages open_chat ++ [msg] /\
    lastMessageTimestamp (with_message msg open_chat) = now_timestamp.
Proof.
  intros Ha Hf Hn Hnewer st' msg.
  unfold st', handleSendMessage. rewrite Ha.
  destruct (String.eqb sid EmptyString); [reflexivity|].
  split; [|split; reflexivity].
  rewrite Hf, Hn. cbn [sessions].
  fold msg.
  set (l := firstn i (sessions st) ++ with_message msg open_chat
              :: skipn (S i) (sessions st)).
  pose proof (sort_sessions_perm l) as Hperm.
  pose proof (sort_sessions_sorted l) as Hsorted.
  destruct (sort_sessions l) as [|h r] eqn:Es.
  - apply Permutation_sym, Permutation_nil in Hperm.
    unfold l in Hperm. now destruct (firstn i (sessions st)).
  - cbn [hd_error]. f_equal.
    assert (Hx : In (with_message msg open_chat) (h :: r)).
    { apply (Permutation_in _ Hperm). unfold l. apply in_or_app. right. now left. }
    assert (Hh : In h l) by (apply (Permutation_in _ (Permutation_sym Hperm)); now left).
    assert (Hge : now_timestamp <= lastMessageTimestamp h).
    { destruct Hx as [Hx|Hx]; [rewrite Hx; cbn; lia|].
      inversion_clear Hsorted as [|? ? _ Hall]. rewrite Forall_forall in Hall.
      apply (Hall _ Hx). }
    unfold l in Hh. apply in_app_or in Hh as [Hh|[Hh|Hh]].
    + apply In_firstn_nth in Hh as [j [Hj Ej]].
      specialize (Hnewer j h ltac:(lia) Ej). lia.
    + now symmetry.
    + apply In_skipn_nth in Hh as [j [Hj Ej]].
      specialize (Hnewer j h ltac:(lia) Ej). lia.
Qed.

Lemma sent_chat_moves_to_front_witness :
  let st' := handleSendMessage "me" "On my way" None 1000001 1000002 (initial 1000000) in
  let msg := newUserMsg "me" "On my way" None 1000001 1000002 in
  let sarah := {| id := "s2"; contactId := "sarah";
                  messages :=
                    [ {| message_id := "m1"; senderId := "sarah";
                         content := "Did you see the new designs?";
                         attachment := None; timestamp := 500000;
                         message_type := TText; status := None |} ];
                  unreadCount := 2; lastMessageTimestamp := 500000 |} in
  hd_error (sessions st') = Some (with_message msg sarah) /\
  messages (with_message msg sarah) = messages sarah ++ [msg] /\
  lastMessageTimestamp (with_message msg sarah) = 1000002.
Proof.
  apply (sent_chat_moves_to_front "me" "On my way" None 1000001 1000002
           (initial 1000000) "s2" 1%nat); try reflexivity.
  intros [|[|[|j]]] other Hj E; try congruence.
  - injection E as <-. reflexivity.
  - injection E as <-. reflexivity.
  - destruct j; discriminate.
Defined.

End ChatsFacts.
(* ================================================================= *)
(** * Further properties: rejected text, queued audio, status of a call *)

Section LastFacts.
Import Base64 Pcm Live Runs Samples Calls App.
Import PrimFloat.

Lemma strip_padding_keeps c l :
  c <> pad_char -> In c l -> In c (strip_padding l).
Proof.
  intros Hc Hin. unfold strip_padding.
  destruct (_ mod 4 =? 0); [|assumption].
  assert (Hrev : In c (rev l)) by now apply in_rev in Hin.
  destruct (rev l) as [|x before]; [assumption|].
  destruct (x =? pad_char) eqn:Ex; [|assumption].
  apply Z.eqb_eq in Ex. subst x.
  destruct Hrev as [E|Hrev]; [congruence|].
  destruct before as [|y before2]; [contradiction|].
  destruct (y =? pad_char) eqn:Ey.
  - apply Z.eqb_eq in Ey. subst y.
    destruct Hrev as [E|Hrev]; [congruence|]. now apply in_rev in Hrev.
  - now apply in_rev in Hrev.
Qed.

Lemma traverse_sextets_foreign c l :
  In c l -> sextet_of_char c = None -> traverse_sextets l = None.
Proof.
  intros Hin Hc. induction l as [|x r IH]; [contradiction|].
  cbn [traverse_sextets]. destruct Hin as [->|Hin].
  - now rewrite Hc.
  - rewrite (IH Hin). now destruct (sextet_of_char x).
Qed.

(** X27: [decode] rejects every text that holds a character that is neither
    of the base64 alphabet, nor white space, nor ['=']: wherever the character
    stands, the result is the exception of [atob] and no byte is returned. *)
Theorem decode_rejects_foreign_character (base64 : jsstring) (c : Z) :
  In c base64 ->
  sextet_of_char c = None ->
  is_ascii_whitespace c = false ->
  c <> pad_char ->
  decode base64 = None /\ malformed base64 = true.
Proof.
  intros Hin Hc Hw Hp.
  assert (E : decode base64 = None).
  { unfold decode, atob. cbv zeta.
    destruct (_ mod 4 =? 1); [reflexivity|].
    rewrite (traverse_sextets_foreign c); [reflexivity | | assumption].
    apply strip_padding_keeps; [assumption|].
    apply filter_In. split; [assumption | now rewrite Hw]. }
  split; [exact E|]. unfold malformed. now rewrite E.
Qed.

Lemma decode_rejects_foreign_character_witness :
  decode (lit "AA$A") = None /\ malformed (lit "AA$A") = true.
Proof.
  apply (decode_rejects_foreign_character (lit "AA$A") 36).
  - right; right; now left.
  - reflexivity.
  - reflexivity.
  - discriminate.
Defined.

Lemma play_queued chunks : forall s ctx,
  Binary64.outputAudioContext s = Some ctx ->
  Binary64.queued chunks s ->
  Binary64.gapless chunks s (snd (Binary64.play chunks s)) /\
  List.length (snd (Binary64.play chunks s)) = List.length chunks /\
  Binary64.outputAudioContext (fst (Binary64.play chunks s)) = Some ctx.
Proof.
  induction chunks as [|[[base64 now] node] rest IH]; intros s ctx Hctx Hq.
  - cbn. auto.
  - cbn [Binary64.queued] in Hq. destruct Hq as [[b Hb] [Hs [Hnow Hrest]]].
    pose proof (Math_max_queued _ _ Hnow) as [Heq _].
    pose proof (playAudioChunk_binary64 base64 now node s ctx b Hctx Hb
                  (startable_queued _ _ Hs Hnow)) as R.
    cbn [Binary64.play].
    destruct (Binary64.play rest
                (Binary64.state_of (Binary64.playAudioChunk base64 now node s)))
      as [s2 t2] eqn:Ep.
    specialize (IH (Binary64.state_of (Binary64.playAudioChunk base64 now node s)) ctx).
    rewrite Ep in IH. cbn [fst snd] in IH |- *.
    destruct IH as [G [L C]]; [rewrite R; exact Hctx | exact Hrest |].
    split; [|split; [|exact C]].
    + rewrite R at 1. cbn [Binary64.trace_of snd app Binary64.gapless].
      split; [reflexivity|]. split; [exact Heq|].
      split; [|exact G].
      exists b. split; [exact Hb|]. rewrite R. reflexivity.
    + rewrite R. cbn [Binary64.trace_of snd app List.length]. now rewrite L.
Qed.

(** X28: chunks that arrive while audio is still queued play back to back,
    in binary64 as the code computes: when every chunk of a run decodes and
    is read at a clock that has not passed the [nextStartTime] it finds,
    every chunk starts one source, at that [nextStartTime] exactly, and
    moves [nextStartTime] by the duration of its buffer (a rounded sum); so
    no gap is put between the items. *)
Theorem queued_chunks_play_back_to_back
    (chunks : list Binary64.Chunk) (s : Binary64.Timeline) (ctx : handle) :
  Binary64.outputAudioContext s = Some ctx ->
  Binary64.queued chunks s ->
  Binary64.gapless chunks s (snd (Binary64.play chunks s)) /\
  List.length (snd (Binary64.play chunks s)) = List.length chunks.
Proof.
  intros Hctx Hq. destruct (play_queued chunks s ctx Hctx Hq) as [G [L _]].
  split; assumption.
Qed.

Lemma queued_chunks_play_back_to_back_witness :
  let chunks := [(silence_tenth, 5%float, 11%nat);
                 (silence_tenth, 0x1.4666666666666p+2%float, 12%nat)] in
  let queue := Binary64.state_of
                 (Binary64.playAudioChunk silence_tenth 5 10 Binary64.active) in
  Binary64.gapless chunks queue (snd (Binary64.play chunks queue)) /\
  List.length (snd (Binary64.play chunks queue)) = 2%nat.
Proof.
  apply (queued_chunks_play_back_to_back
           [(silence_tenth, 5%float, 11%nat);
            (silence_tenth, 0x1.4666666666666p+2%float, 12%nat)]
           (Binary64.state_of
              (Binary64.playAudioChunk silence_tenth 5 10 Binary64.active))
           2%nat eq_refl).
  cbn [Binary64.queued].
  split; [exists silence_buffer; exact silence_tenth_buffer|].
  split; [vm_compute; reflexivity|]. split; [vm_compute; reflexivity|].
  split; [exists silence_buffer; exact silence_tenth_buffer|].
  split; [vm_compute; reflexivity|]. split; [vm_compute; reflexivity|].
  exact I.
Defined.

(** X29: a start that succeeds asks the transport for a session, logs
    the opening of the socket and starts the capture on the microphone
    stream, in this order and nothing else; the service kept in the ref holds
    the session, the stream, both contexts and the two capture nodes.  The
    status shown is then [connected], unless the status was [error] when the
    handler was created: then the test made after the [await] leaves it at
    [connecting], although the session is open. *)
Theorem successful_start_status
    (env : Env) (m h : handle) (a : App) (sid : string) (chat : ChatSession) :
  activeSessionId a = Some sid ->
  String.eqb sid EmptyString = false ->
  find (fun c => String.eqb (id c) sid) (sessions a) = Some chat ->
  USERS (contactId chat) = Some {| isBot := true |} ->
  mediaDevices env = true ->
  getUserMedia env = Some m ->
  let r := handleVoiceStart env (inl h) a in
  isVoiceActive (fst r) = true /\
  voiceStatus (fst r)
  = (if VoiceStatus_eqb (voiceStatus a) error then connecting else connected) /\
  voiceErrorMsg (fst r) = EmptyString /\
  snd r = [Service LiveConnect;
           Service (ConsoleLog "Live Session Connected");
           Service (CaptureStart m (scriptProcessor env))] /\
  liveServiceRef (fst r) = Some (List.length (services a)) /\
  nth_error (services (fst r)) (List.length (services a))
  = Some {| inputAudioContext := Some (inputCtx env);
            outputAudioContext := Some (outputCtx env);
            stream := Some m;
            processor := Some (scriptProcessor env);
            sourceNode := Some (mediaStreamSource env);
            nextStartTime := 0;
            sources := [];
            session := Some h |}.
Proof.
  intros Hsid Hne Hfind Huser Hm Hg r. unfold r, handleVoiceStart.
  rewrite Hsid, Hne, Hfind, Huser. cbn [isBot negb].
  rewrite (start_service_opened env m h Hm Hg). cbn [deliver fst snd].
  destruct (VoiceStatus_eqb (voiceStatus a) error);
    unfold set_voiceStatus, started;
    cbn [fst snd isVoiceActive voiceStatus voiceErrorMsg services liveServiceRef];
    rewrite nth_error_snoc; repeat split.
Qed.

Lemma successful_start_status_witness :
  let r := handleVoiceStart granted (inl 7%nat) idle in
  isVoiceActive (fst r) = true /\
  voiceStatus (fst r) = connected /\
  voiceErrorMsg (fst r) = EmptyString /\
  snd r = [Service LiveConnect;
           Service (ConsoleLog "Live Session Connected");
           Service (CaptureStart 3 5)] /\
  liveServiceRef (fst r) = Some 0%nat /\
  nth_error (services (fst r)) 0 = Some active.
Proof.
  exact (successful_start_status granted 3%nat 7%nat idle "s1"
           {| id := "s1"; contactId := "gemini" |}
           eq_refl eq_refl eq_refl eq_refl eq_refl eq_refl).
Defined.



End LastFacts.
